(** * Lumina Press front end: book detail page and creation flow

    A shallow embedding of the pure and state-machine parts of
    [frontend/src/pages/BookDetail.js] and of the creation flow
    ([pollProgress] in BookCreator), together with the statements the
    specification makes about them.

    JavaScript strings are sequences of UTF-16 code units; they are modelled
    as lists of [N].  The regular expressions of the source are transcribed
    node by node and run by a small backtracking matcher that follows the
    ECMAScript evaluation order (greedy: longest first, lazy: shortest
    first, lookarounds inspect the whole subject string). *)

From Stdlib Require Import String Ascii QArith NArith Bool Arith Lia List.
From Stdlib Require Sorted Permutation.
Import ListNotations.
Close Scope Q_scope.

Set Implicit Arguments.

(* ================================================================== *)
(** ** JavaScript strings *)
(* ================================================================== *)

Module Js.

Definition char := N.
Definition jsstring := list char.

(** A string literal of the source, as code units. *)
Definition lit (s : string) : jsstring :=
  map N_of_ascii (list_ascii_of_string s).

Definition code (a : ascii) : char := N_of_ascii a.

(** [WhiteSpace] and [LineTerminator] of ECMAScript: exactly the code
    units removed by [String.prototype.trim] and matched by [\s]. *)
Definition isLineTerminator (c : char) : bool :=
  ((c =? 10) || (c =? 13) || (c =? 8232) || (c =? 8233))%N.

Definition isWhiteSpace (c : char) : bool :=
  ((c =? 9) || (c =? 11) || (c =? 12) || (c =? 32) || (c =? 160)
   || (c =? 5760) || ((8192 <=? c) && (c <=? 8202))
   || (c =? 8239) || (c =? 8287) || (c =? 12288) || (c =? 65279)
   || isLineTerminator c)%N.

Definition isDigit (c : char) : bool := ((48 <=? c) && (c <=? 57))%N.

(** The character class [.] (no [s] flag). *)
Definition isDot (c : char) : bool := negb (isLineTerminator c).

Definition isChar (a : ascii) (c : char) : bool := (c =? code a)%N.

Definition isHash : char -> bool := isChar "#".
Definition isStar : char -> bool := isChar "*".
Definition isDashOrStar (c : char) : bool := isChar "-" c || isChar "*" c.
Definition isDotOrParen (c : char) : bool := isChar "." c || isChar ")" c.

Fixpoint trimStart (s : jsstring) : jsstring :=
  match s with
  | c :: s' => if isWhiteSpace c then trimStart s' else s
  | [] => []
  end.

Definition trimEnd (s : jsstring) : jsstring := rev (trimStart (rev s)).

Definition trim (s : jsstring) : jsstring := trimEnd (trimStart s).

(** [s.split(sep)] for a one-character separator. *)
Fixpoint split (sep : char) (s : jsstring) : list jsstring :=
  match s with
  | [] => [[]]
  | c :: s' =>
      if (c =? sep)%N then [] :: split sep s'
      else match split sep s' with
           | l :: ls => (c :: l) :: ls
           | [] => [[c]]
           end
  end.

(** Truthiness of a string value: [!s] holds for the empty string. *)
Definition truthy (s : jsstring) : bool :=
  match s with [] => false | _ :: _ => true end.

(** Truthiness of a possibly [null]/[undefined] string. *)
Definition truthy_opt (s : option jsstring) : bool :=
  match s with Some s => truthy s | None => false end.

Fixpoint startsWith (p s : jsstring) : bool :=
  match p, s with
  | [], _ => true
  | a :: p', b :: s' => (a =? b)%N && startsWith p' s'
  | _ :: _, [] => false
  end.

(** [rest] is empty or begins with a character outside [cls]. *)
Definition stops (cls : char -> bool) (rest : jsstring) : Prop :=
  match rest with c :: _ => cls c = false | [] => True end.

End Js.

Import Js.

(* ================================================================== *)
(** ** Regular expressions *)
(* ================================================================== *)

Module Regex.

(** The fragment of the pattern language the source uses: every
    quantifier applies to a single character class, at most one group
    captures, assertions look at one neighbouring character. *)
Inductive node : Type :=
| Bol                                   (* ^ *)
| Rep (capture : bool) (cls : char -> bool)
      (lo : nat) (hi : option nat) (greedy : bool)
| NotBehind (cls : char -> bool)        (* (?<!c) *)
| NotAhead (cls : char -> bool).        (* (?!c)  *)

Definition regex := list node.

Definition One (cls : char -> bool) : node := Rep false cls 1 (Some 1) true.

(** Result of a successful match: group 1 and the number of code units
    the whole match consumed. *)
Record mres : Type := MRes { group1 : jsstring; taken : nat }.

Definition room (hi : option nat) : bool :=
  match hi with Some 0 => false | _ => true end.

Definition less (hi : option nat) : option nat := option_map pred hi.

Definition orelse (a b : option mres) : option mres :=
  match a with Some r => Some r | None => b end.

(** Repetition of a character class followed by the continuation [k];
    [acc] is what the repetition has consumed so far, in reverse. *)
Fixpoint rep (k : jsstring -> jsstring -> jsstring -> nat -> option mres)
         (cls : char -> bool) (lo : nat) (hi : option nat) (greedy : bool)
         (before after acc : jsstring) (n : nat) {struct after}
  : option mres :=
  let stop := match lo with 0 => k before after acc n | S _ => None end in
  let more :=
    match after with
    | c :: after' =>
        if cls c && room hi
        then rep k cls (pred lo) (less hi) greedy
                 (c :: before) after' (c :: acc) (S n)
        else None
    | [] => None
    end in
  if greedy then orelse more stop else orelse stop more.

(** [run r before after g n]: match [r] at the position whose left
    context is [before] (nearest character first) and whose right context
    is [after]. *)
Fixpoint run (r : regex) (before after g : jsstring) (n : nat)
  : option mres :=
  match r with
  | [] => Some (MRes g n)
  | Bol :: r' =>
      match before with
      | [] => run r' before after g n
      | _ :: _ => None
      end
  | NotBehind cls :: r' =>
      match before with
      | c :: _ => if cls c then None else run r' before after g n
      | [] => run r' before after g n
      end
  | NotAhead cls :: r' =>
      match after with
      | c :: _ => if cls c then None else run r' before after g n
      | [] => run r' before after g n
      end
  | Rep cap cls lo hi greedy :: r' =>
      rep (fun b a acc m => run r' b a (if cap then rev acc else g) m)
          cls lo hi greedy before after [] n
  end.

Definition matchAt (r : regex) (before after : jsstring) : option mres :=
  run r before after [] 0.

(** Leftmost match, as [RegExp.prototype.exec] finds it. *)
Fixpoint exec_from (r : regex) (before after : jsstring) : option mres :=
  match matchAt r before after with
  | Some m => Some m
  | None =>
      match after with
      | c :: after' => exec_from r (c :: before) after'
      | [] => None
      end
  end.

Definition exec (r : regex) (s : jsstring) : option mres := exec_from r [] s.

Definition test (r : regex) (s : jsstring) : bool :=
  match exec r s with Some _ => true | None => false end.

(** [s.replace(r, f)] without the [g] flag: the leftmost match only. *)
Fixpoint replace_from (r : regex) (f : jsstring -> jsstring)
         (before after : jsstring) : jsstring :=
  match matchAt r before after with
  | Some m => f (group1 m) ++ skipn (taken m) after
  | None =>
      match after with
      | c :: after' => c :: replace_from r f (c :: before) after'
      | [] => []
      end
  end.

Definition replace (r : regex) (f : jsstring -> jsstring) (s : jsstring)
  : jsstring := replace_from r f [] s.

(** [s.replace(r, f)] with the [g] flag.  [skip] counts the code units of
    the current match that are still to be passed over; an empty match
    copies one code unit and moves on. *)
Fixpoint replaceAll_from (r : regex) (f : jsstring -> jsstring)
         (skip : nat) (before after : jsstring) : jsstring :=
  match skip with
  | S k =>
      match after with
      | c :: after' => replaceAll_from r f k (c :: before) after'
      | [] => []
      end
  | 0 =>
      match matchAt r before after with
      | Some m =>
          f (group1 m) ++
          match after with
          | c :: after' =>
              match taken m with
              | 0 => c :: replaceAll_from r f 0 (c :: before) after'
              | S k => replaceAll_from r f k (c :: before) after'
              end
          | [] => []
          end
      | None =>
          match after with
          | c :: after' => c :: replaceAll_from r f 0 (c :: before) after'
          | [] => []
          end
      end
  end.

Definition replaceAll (r : regex) (f : jsstring -> jsstring) (s : jsstring)
  : jsstring := replaceAll_from r f 0 [] s.

End Regex.

Import Regex.

(* ================================================================== *)
(** ** The full book preview (BookDetail.js, preview mode) *)
(* ================================================================== *)

Module Preview.

Inductive block : Type :=
| Blank                                   (* <br/> *)
| Heading (level : nat) (text : jsstring) (* <h2 class=sizes[level]> *)
| Bullet (text : jsstring)                (* <li class=list-disc> *)
| Numbered (text : jsstring)              (* <li class=list-decimal> *)
| Paragraph (html : jsstring).            (* <p dangerouslySetInnerHTML> *)

(** /^#{1,4}\s/ *)
Definition re_heading : regex :=
  [Bol; Rep false isHash 1 (Some 4) true; One isWhiteSpace].
(** /^(#{1,4})/ *)
Definition re_hashes : regex :=
  [Bol; Rep true isHash 1 (Some 4) true].
(** /^#{1,4}\s+/ *)
Definition re_heading_marker : regex :=
  [Bol; Rep false isHash 1 (Some 4) true; Rep false isWhiteSpace 1 None true].
(** /^[-*]\s/ *)
Definition re_bullet : regex := [Bol; One isDashOrStar; One isWhiteSpace].
(** /^[-*]\s+/ *)
Definition re_bullet_marker : regex :=
  [Bol; One isDashOrStar; Rep false isWhiteSpace 1 None true].
(** /^\d+[.)]\s/ *)
Definition re_numbered : regex :=
  [Bol; Rep false isDigit 1 None true; One isDotOrParen; One isWhiteSpace].
(** /^\d+[.)]\s+/ *)
Definition re_numbered_marker : regex :=
  [Bol; Rep false isDigit 1 None true; One isDotOrParen;
   Rep false isWhiteSpace 1 None true].

(** /\*{3}(.+?)\*{3}/g *)
Definition re_strong_em : regex :=
  [Rep false isStar 3 (Some 3) true; Rep true isDot 1 None false;
   Rep false isStar 3 (Some 3) true].
(** /\*{2}(.+?)\*{2}/g *)
Definition re_strong : regex :=
  [Rep false isStar 2 (Some 2) true; Rep true isDot 1 None false;
   Rep false isStar 2 (Some 2) true].
(** /(?<!A)A(?!A)(.+?)(?<!A)A(?!A)/g, where A is the escaped asterisk *)
Definition re_em : regex :=
  [NotBehind isStar; One isStar; NotAhead isStar;
   Rep true isDot 1 None false;
   NotBehind isStar; One isStar; NotAhead isStar].

Definition strong_em (x : jsstring) : jsstring :=
  lit "<strong><em>" ++ x ++ lit "</em></strong>".
Definition strong (x : jsstring) : jsstring :=
  lit "<strong>" ++ x ++ lit "</strong>".
Definition em (x : jsstring) : jsstring :=
  lit "<em>" ++ x ++ lit "</em>".

Definition drop (_ : jsstring) : jsstring := [].

(** The three chained [replace] calls of the paragraph branch. *)
Definition inline (trimmed : jsstring) : jsstring :=
  replaceAll re_em em
    (replaceAll re_strong strong
       (replaceAll re_strong_em strong_em trimmed)).

(** The callback of [split("\n").map(...)].  [None] stands for the
    [TypeError] raised when [match] returns [null]. *)
Definition render_line (line : jsstring) : option block :=
  let trimmed := trim line in
  if negb (truthy trimmed) then Some Blank
  else if test re_heading trimmed then
    match exec re_hashes trimmed with
    | Some m =>
        let level := length (group1 m) in
        let text := replace re_heading_marker drop trimmed in
        Some (Heading level text)
    | None => None
    end
  else if test re_bullet trimmed then
    Some (Bullet (replace re_bullet_marker drop trimmed))
  else if test re_numbered trimmed then
    Some (Numbered (replace re_numbered_marker drop trimmed))
  else Some (Paragraph (inline trimmed)).

Definition lines (content : jsstring) : list jsstring :=
  split (code "010") content.

(** [ch.content?.split("\n").map(...)]: nothing is rendered for absent
    content. *)
Definition render (content : option jsstring) : option (list (option block)) :=
  option_map (fun c => map render_line (lines c)) content.

End Preview.


(* ================================================================== *)
(** ** The expanded chapter card (BookDetail.js, chapter content preview) *)
(* ================================================================== *)

Module Card.
Import Preview.

Inductive cblock : Type :=
| CBlank                          (* <br/> *)
| CHeading (text : jsstring)      (* <h3> *)
| CBullet (text : jsstring)       (* <li class=list-disc> *)
| CParagraph (text : jsstring).   (* <p>{cleaned}</p> *)

(** /\*{2,3}(.+?)\*{2,3}/g *)
Definition re_clean_strong : regex :=
  [Rep false isStar 2 (Some 3) true; Rep true isDot 1 None false;
   Rep false isStar 2 (Some 3) true].
(** /\*(.+?)\*/g *)
Definition re_clean_em : regex :=
  [One isStar; Rep true isDot 1 None false; One isStar].

(** The replacement pattern "$1". *)
Definition group (x : jsstring) : jsstring := x.

Definition clean (trimmed : jsstring) : jsstring :=
  replaceAll re_clean_em group (replaceAll re_clean_strong group trimmed).

Definition card_line (line : jsstring) : cblock :=
  let trimmed := trim line in
  if negb (truthy trimmed) then CBlank
  else if test re_heading trimmed then
    CHeading (replace re_heading_marker drop trimmed)
  else if test re_bullet trimmed then
    CBullet (replace re_bullet_marker drop trimmed)
  else CParagraph (clean trimmed).

(** [chapter.content?.split("\n").slice(0, 30).map(...)] *)
Definition card (content : option jsstring) : option (list cblock) :=
  option_map (fun c => map card_line (firstn 30 (lines c))) content.

End Card.

(* ================================================================== *)
(** ** The book detail page (BookDetail.js): data, handlers, polling *)
(* ================================================================== *)

Module BookDetail.

(** [a === b] on strings. *)
Fixpoint streq (a b : jsstring) : bool :=
  match a, b with
  | [], [] => true
  | x :: a', y :: b' => (x =? y)%N && streq a' b'
  | _, _ => false
  end.

Record chapter : Type := Chapter {
  chapter_number : Z;
  chapter_title : jsstring;
  content : option jsstring;
  image_url : option jsstring
}.

Record outline_entry : Type := OutlineEntry {
  entry_number : Z;
  entry_title : jsstring
}.

(** A book as [getBook] returns it; [chapters] and [outline] may be
    missing ([book.chapters || []]). *)
Record book : Type := Book {
  title : jsstring;
  status : jsstring;
  chapters : option (list chapter);
  outline : option (list outline_entry)
}.

Definition or_empty {A} (l : option (list A)) : list A :=
  match l with Some l => l | None => [] end.

(** [Array.prototype.sort] with the comparator
    [(a, b) => a.chapter_number - b.chapter_number]; the sort is stable. *)
Fixpoint insert_chapter (c : chapter) (l : list chapter) : list chapter :=
  match l with
  | [] => [c]
  | x :: l' =>
      if (chapter_number c <=? chapter_number x)%Z then c :: l
      else x :: insert_chapter c l'
  end.

Definition sort_chapters (l : list chapter) : list chapter :=
  fold_right insert_chapter [] l.

Definition sorted_chapters (b : book) : list chapter :=
  sort_chapters (or_empty (chapters b)).

(** [chapters.length / Math.max(outline.length, 1)].  Both operands are
    array lengths, the quotient is kept as an exact rational. *)
Definition progress_denominator (b : book) : nat :=
  Nat.max (length (or_empty (outline b))) 1.

Definition progress (b : book) : Q :=
  (inject_Z (Z.of_nat (length (sorted_chapters b)))
   / inject_Z (Z.of_nat (progress_denominator b)))%Q.

Section ImageSrc.
(** [process.env.REACT_APP_BACKEND_URL] as the template literal
    interpolates it. *)
Variable BACKEND_URL : jsstring.

Definition getImageSrc (imageUrl : option jsstring) : option jsstring :=
  match imageUrl with
  | None => None
  | Some u =>
      if negb (truthy u) then None
      else if startsWith (lit "/api") u then Some (BACKEND_URL ++ u)
      else Some u
  end.

End ImageSrc.

(** The outcome of an awaited API call: the promise resolves with the
    data, or it is rejected with an error of which the handlers read one
    text ([err.response?.data?.detail], or [err.message] in
    [handleExport]). *)
Inductive response (A : Type) : Type :=
| Resolved (data : A)
| Rejected (detail : option jsstring).
Arguments Resolved {A} data.
Arguments Rejected {A} detail.

Inductive message : Type :=
| ImageGenerated (chapterNum : Z)   (* `Image generated for chapter ${n}!` *)
| NoImage                           (* "No image could be generated" *)
| Failure (text : jsstring)         (* the detail, or the fallback text *)
| Exported (format : jsstring)      (* `Exported as ${format.toUpperCase()}!` *)
| ExportFailed (detail : option jsstring). (* `Export failed: ${err.message}` *)

Inductive effect : Type :=
| SetGeneratingImage (chapterNum : option Z)
| SetExporting (on : bool)
| FetchBook
| ToastSuccess (m : message)
| ToastError (m : message)
| Download (filename : jsstring) (data : jsstring).

(** [a || b] for an optional string [a]. *)
Definition or_else (a : option jsstring) (b : jsstring) : jsstring :=
  if truthy_opt a then match a with Some s => s | None => b end else b.

(** What [generateChapterImage] resolves with; [result.image_url] may be
    missing. *)
Record image_result : Type := ImageResult { result_image_url : option jsstring }.

(** [handleGenerateImage]: the effects of one call, given what
    [generateChapterImage] answered.  [try { result = await ...; if
    (result.image_url) { await fetchBook(); toast.success(...) } else {
    toast.error("No image could be generated") } } catch (err) {
    toast.error(detail || "Failed to generate image") } finally {
    setGeneratingImage(null) }]; [fetchBook] handles its own errors. *)
Definition handleGenerateImage (chapterNum : Z) (r : response image_result)
  : list effect :=
  [SetGeneratingImage (Some chapterNum)] ++
  match r with
  | Resolved result =>
      if truthy_opt (result_image_url result)
      then [FetchBook; ToastSuccess (ImageGenerated chapterNum)]
      else [ToastError NoImage]
  | Rejected detail =>
      [ToastError (Failure (or_else detail (lit "Failed to generate image")))]
  end ++
  [SetGeneratingImage None].

(** /\s+/g *)
Definition re_spaces : regex := [Rep false isWhiteSpace 1 None true].

Definition underscore (_ : jsstring) : jsstring := lit "_".

(** [`${book.title.replace(/\s+/g, "_")}.${format}`] *)
Definition download_name (b : book) (format : jsstring) : jsstring :=
  replaceAll re_spaces underscore (title b) ++ lit "." ++ format.

(** [handleExport]: the effects of one call, given what [exportBook]
    answered: on success the blob is downloaded through an anchor whose
    [download] attribute is the name above; an error is only shown. *)
Definition handleExport (b : book) (format : jsstring)
           (r : response jsstring) : list effect :=
  [SetExporting true] ++
  match r with
  | Resolved data =>
      [Download (download_name b format) data; ToastSuccess (Exported format)]
  | Rejected detail => [ToastError (ExportFailed detail)]
  end ++
  [SetExporting false].

(** The header controls of the normal view: preview and the export menu
    are rendered only under [chapters.length > 0]. *)
Inductive control : Type :=
| PreviewButton
| ExportItem (format : jsstring).

Definition header_controls (b : book) : list control :=
  if 0 <? length (sorted_chapters b)
  then [PreviewButton; ExportItem (lit "pdf"); ExportItem (lit "docx");
        ExportItem (lit "epub")]
  else [].

(** The export requests a click can issue. *)
Definition export_requests (b : book) : list jsstring :=
  flat_map (fun c => match c with ExportItem f => [f] | PreviewButton => [] end)
           (header_controls b).

(** *** The progress poll (the second [useEffect]) *)

Record progress_result : Type := ProgressResult {
  progress_status : jsstring;
  progress_error : option jsstring
}.

(** One run of the effect: the interval handle it holds, if one is
    installed, with its period in ms; the number of [getBookProgress]
    calls whose answer is still awaited; and the number of [fetchBook]
    calls its callbacks have made. *)
Record poll : Type := Poll {
  timer : option N;
  pending : nat;
  refetches : nat
}.

(** Running the effect for the current [book]:
    [if (!book || book.status !== "writing") return;] otherwise
    [setInterval(..., 5000)].  No call is awaited yet. *)
Definition install (b : option book) (refetches : nat) : poll :=
  match b with
  | None => Poll None 0 refetches
  | Some b =>
      if negb (streq (status b) (lit "writing")) then Poll None 0 refetches
      else Poll (Some 5000%N) 0 refetches
  end.

Inductive poll_event : Type :=
| Fire                                  (* the interval fires *)
| Answer (r : response progress_result) (* an awaited call answers *)
| Cleanup.                              (* dependencies change, or unmount *)

(** One event in the life of the effect.  The interval callback is
    [try { progress = await getBookProgress(bookId); if (progress.status
    !== "writing") { clearInterval(interval); fetchBook() } } catch {}];
    the effect returns [() => clearInterval(interval)].  Only an installed
    interval fires, and a firing calls [getBookProgress] and awaits it.
    When a call answers, its callback goes on from the [await] whatever
    has become of the interval meanwhile: it checks nothing but the
    status.  An answer needs an awaited call. *)
Definition poll_step (p : poll) (e : poll_event) : poll :=
  match e with
  | Fire =>
      match timer p with
      | Some _ => Poll (timer p) (S (pending p)) (refetches p)
      | None => p
      end
  | Answer r =>
      match pending p with
      | 0 => p
      | S k =>
          match r with
          | Resolved pr =>
              if negb (streq (progress_status pr) (lit "writing"))
              then Poll None k (S (refetches p))
              else Poll (timer p) k (refetches p)
          | Rejected _ => Poll (timer p) k (refetches p)
          end
      end
  | Cleanup => Poll None (pending p) (refetches p)
  end.

Definition poll_run (p : poll) (es : list poll_event) : poll :=
  fold_left poll_step es p.

End BookDetail.

(* ================================================================== *)
(** ** The creation flow (BookCreator): pollProgress *)
(* ================================================================== *)

Module BookCreator.
Import BookDetail.

Record writing_progress : Type := WritingProgress {
  wp_status : jsstring;
  wp_error : option jsstring;
  generated_chapters : nat;
  total_chapters : nat
}.

Inductive action : Type :=
| SetWritingProgress (p : writing_progress)
| ClearInterval
| ToastBookComplete
| ToastGenerationError (text : jsstring)
| Navigate (path : jsstring).

(** [setInterval(..., 5000)] *)
Definition poll_period : N := 5000.

(** One firing of the interval callback for book [bookId]:
    [try { progress = await getBookProgress(bookId);
    setWritingProgress(progress); if (progress.status ===
    "chapters_complete") { clearInterval(interval); toast.success(...);
    navigate(`/book/${bookId}`) } else if (progress.status === "error") {
    clearInterval(interval); toast.error(progress.error || "Error during
    generation") } } catch (err) { /* keep polling */ }]. *)
Definition pollProgress_tick (bookId : jsstring)
           (r : response writing_progress) : list action :=
  match r with
  | Resolved p =>
      SetWritingProgress p ::
      if streq (wp_status p) (lit "chapters_complete")
      then [ClearInterval; ToastBookComplete; Navigate (lit "/book/" ++ bookId)]
      else if streq (wp_status p) (lit "error")
      then [ClearInterval;
            ToastGenerationError
              (or_else (wp_error p) (lit "Error during generation"))]
      else []
  | Rejected _ => []
  end.

(** Whether a firing called [clearInterval]. *)
Definition clears (acts : list action) : bool :=
  existsb (fun a => match a with ClearInterval => true | _ => false end) acts.

(** The interval when its firings are answered in turn, [rs] being the
    answers of the successive firings, each one received before the next
    firing: [Some period] while it is installed.  Once cleared it does not
    fire again, so that no further answer is asked for. *)
Fixpoint pollProgress_run (bookId : jsstring) (timer : option N)
         (rs : list (response writing_progress))
  : option N * list action :=
  match timer, rs with
  | Some t, r :: rs' =>
      let acts := pollProgress_tick bookId r in
      let (t', later) :=
        pollProgress_run bookId (if clears acts then None else Some t) rs' in
      (t', acts ++ later)
  | _, _ => (timer, [])
  end.

Definition pollProgress (bookId : jsstring)
           (rs : list (response writing_progress)) : option N * list action :=
  pollProgress_run bookId (Some poll_period) rs.

(** The interval in general, where a firing may still await its answer
    when the next one comes.  Only an installed interval fires, and a
    firing calls [getBookProgress] and awaits it; when a call answers, its
    callback goes on from the [await] whatever has become of the interval
    meanwhile.  An answer needs an awaited call. *)
Inductive firing : Type :=
| Fired                                     (* the interval fires *)
| Answered (r : response writing_progress). (* an awaited call answers *)

Record interval : Type := Interval {
  installed : option N;
  awaited : nat
}.

Definition interval_step (bookId : jsstring) (s : interval) (e : firing)
  : interval * list action :=
  match e with
  | Fired =>
      match installed s with
      | Some _ => (Interval (installed s) (S (awaited s)), [])
      | None => (s, [])
      end
  | Answered r =>
      match awaited s with
      | 0 => (s, [])
      | S k =>
          let acts := pollProgress_tick bookId r in
          (Interval (if clears acts then None else installed s) k, acts)
      end
  end.

Fixpoint interval_run (bookId : jsstring) (s : interval) (es : list firing)
  : interval * list action :=
  match es with
  | [] => (s, [])
  | e :: es' =>
      let (s', acts) := interval_step bookId s e in
      let (s'', later) := interval_run bookId s' es' in
      (s'', acts ++ later)
  end.

(** The firings answered in turn. *)
Definition answered_in_turn (rs : list (response writing_progress))
  : list firing :=
  flat_map (fun r => [Fired; Answered r]) rs.

(** The value of the writing progress bar:
    [(generated_chapters / Math.max(total_chapters, 1)) * 100], kept as an
    exact rational. *)
Definition bar_denominator (p : writing_progress) : nat :=
  Nat.max (total_chapters p) 1.

Definition bar_value (p : writing_progress) : Q :=
  (inject_Z (Z.of_nat (generated_chapters p))
   / inject_Z (Z.of_nat (bar_denominator p)) * 100)%Q.

End BookCreator.

(* ================================================================== *)
(** ** The export endpoint *)
(* ================================================================== *)

Module Backend.
Import BookDetail.

(** Modelled from the spec: the outcome of the export engine, which is
    server code that is not among the repository files.  An export yields
    a byte stream or the distinct [ExportError] of the error taxonomy
    ("ExportError (unsupported format or zero-chapter book)"). *)
Inductive export_outcome : Type :=
| ExportBytes (data : jsstring)
| ExportError.

(** Modelled from the spec: the formats of the export engine, "PDF, DOCX,
    and EPUB", named as the page requests them. *)
Definition known_format (format : jsstring) : bool :=
  streq format (lit "pdf") || streq format (lit "docx")
  || streq format (lit "epub").

Section Endpoint.
(** The three serialisers, left abstract. *)
Variable serialise : book -> jsstring -> jsstring.

(** Modelled from the spec: the export engine behind [exportBook] (the
    server is not among the repository files).  "Exporting fails loudly
    (distinct error) if the book has zero chapters or the format is
    unrecognized; it never silently produces an empty document." *)
Definition exportBook (b : book) (format : jsstring) : export_outcome :=
  match or_empty (chapters b) with
  | [] => ExportError
  | _ :: _ =>
      if known_format format then ExportBytes (serialise b format)
      else ExportError
  end.

(** Modelled from the spec: what the page's [exportBook] call receives.
    "Export failures are surfaced synchronously to the caller": the
    awaited call is rejected, otherwise it resolves with the bytes. *)
Definition export_response (b : book) (format : jsstring)
  : response jsstring :=
  match exportBook b format with
  | ExportBytes data => Resolved data
  | ExportError => Rejected None
  end.

End Endpoint.

End Backend.

(* ================================================================== *)
(** ** The markdown dialect, as the specification words it *)
(* ================================================================== *)

Module Dialect.
Import Preview.

Definition hash : char := code "#".

(** One or more whitespace characters. *)
Definition blanks (ws : jsstring) : Prop :=
  ws <> [] /\ forallb isWhiteSpace ws = true.

(** Text that does not begin with whitespace. *)
Definition flush (text : jsstring) : Prop := stops isWhiteSpace text.

(** 1 to 4 '#' characters followed by whitespace. *)
Definition heading_line (t : jsstring) : Prop :=
  exists k w rest,
    1 <= k <= 4 /\ isWhiteSpace w = true /\ t = repeat hash k ++ w :: rest.

(** '-' or '*' followed by whitespace. *)
Definition bullet_line (t : jsstring) : Prop :=
  exists m w rest,
    isDashOrStar m = true /\ isWhiteSpace w = true /\ t = m :: w :: rest.

(** One or more digits, then '.' or ')', then whitespace. *)
Definition numbered_line (t : jsstring) : Prop :=
  exists ds p w rest,
    ds <> [] /\ forallb isDigit ds = true /\ isDotOrParen p = true /\
    isWhiteSpace w = true /\ t = ds ++ p :: w :: rest.

(** The block a trimmed line stands for. *)
Inductive dialect : jsstring -> block -> Prop :=
| D_blank : dialect [] Blank
| D_heading k ws text :
    1 <= k <= 4 -> blanks ws -> flush text ->
    dialect (repeat hash k ++ ws ++ text) (Heading k text)
| D_bullet m ws text :
    isDashOrStar m = true -> blanks ws -> flush text ->
    dialect (m :: ws ++ text) (Bullet text)
| D_numbered ds p ws text :
    ds <> [] -> forallb isDigit ds = true -> isDotOrParen p = true ->
    blanks ws -> flush text ->
    dialect (ds ++ p :: ws ++ text) (Numbered text)
| D_paragraph t :
    t <> [] -> ~ heading_line t -> ~ bullet_line t -> ~ numbered_line t ->
    dialect t (Paragraph (inline t)).

(** *** Inline emphasis *)

Definition star : char := code "*".
Definition stars (n : nat) : jsstring := repeat star n.

Inductive span : Type :=
| Plain (t : jsstring)        (* characters outside emphasis runs *)
| Em (x : jsstring)           (* *x*     *)
| Strong (x : jsstring)       (* **x**   *)
| StrongEm (x : jsstring).    (* ***x*** *)

(** How a span is written in the chapter text. *)
Definition source (sp : span) : jsstring :=
  match sp with
  | Plain t => t
  | Em x => lit "*" ++ x ++ lit "*"
  | Strong x => lit "**" ++ x ++ lit "**"
  | StrongEm x => lit "***" ++ x ++ lit "***"
  end.

(** What the span should become: italic, bold, bold+italic; plain
    characters stay as they are. *)
Definition markup (sp : span) : jsstring :=
  match sp with
  | Plain t => t
  | Em x => em x
  | Strong x => strong x
  | StrongEm x => strong_em x
  end.

(** The characters a reader sees. *)
Definition body (sp : span) : jsstring :=
  match sp with Plain t | Em t | Strong t | StrongEm t => t end.

(** Number of asterisks of the delimiter. *)
Definition level (sp : span) : nat :=
  match sp with Plain _ => 0 | Em _ => 1 | Strong _ => 2 | StrongEm _ => 3 end.

Definition written (l : list span) : jsstring := concat (map source l).
Definition marked (l : list span) : jsstring := concat (map markup l).
Definition shown (l : list span) : jsstring := concat (map body l).

(** Text without asterisks. *)
Definition literal (t : jsstring) : Prop :=
  forallb (fun c => negb (isStar c)) t = true.

(** The content [x] of an emphasis run: at least one character, no
    asterisk, no line terminator. *)
Definition emphasised (x : jsstring) : Prop :=
  x <> [] /\ literal x /\ forallb isDot x = true.

Definition emphasis (sp : span) : Prop :=
  1 <= level sp /\ emphasised (body sp).

(** A line whose emphasis runs are each followed by the end of the line
    or by at least one character that is not an asterisk. *)
Inductive well_spaced : list span -> Prop :=
| WS_nil : well_spaced []
| WS_plain t l :
    literal t -> well_spaced l -> well_spaced (Plain t :: l)
| WS_last e :
    emphasis e -> well_spaced [e]
| WS_run e t l :
    emphasis e -> literal t -> t <> [] -> well_spaced l ->
    well_spaced (e :: Plain t :: l).

(** *** The card, read off the full preview *)

(** The card's block for a trimmed line [t] whose full-preview block is
    [b]: levels are forgotten, numbered items and paragraphs are both
    paragraphs of cleaned text. *)
Definition card_view (t : jsstring) (b : block) : Card.cblock :=
  match b with
  | Blank => Card.CBlank
  | Heading _ x => Card.CHeading x
  | Bullet x => Card.CBullet x
  | Numbered _ | Paragraph _ => Card.CParagraph (Card.clean t)
  end.

Inductive kind : Type := KBlank | KHeading | KBullet | KNumbered | KParagraph.

Definition preview_kind (b : block) : kind :=
  match b with
  | Blank => KBlank
  | Heading _ _ => KHeading
  | Bullet _ => KBullet
  | Numbered _ => KNumbered
  | Paragraph _ => KParagraph
  end.

Definition card_kind (c : Card.cblock) : kind :=
  match c with
  | Card.CBlank => KBlank
  | Card.CHeading _ => KHeading
  | Card.CBullet _ => KBullet
  | Card.CParagraph _ => KParagraph
  end.

(** *** Download names *)

(** Every maximal run of whitespace replaced by a single underscore;
    [in_run] tells that the previous character was whitespace. *)
Fixpoint squeeze (in_run : bool) (s : jsstring) : jsstring :=
  match s with
  | [] => []
  | c :: s' =>
      if isWhiteSpace c
      then if in_run then squeeze true s' else code "_" :: squeeze true s'
      else c :: squeeze false s'
  end.

Definition underscored (s : jsstring) : jsstring := squeeze false s.

(** *** Values that are there *)

(** A string field that is set and not empty. *)
Definition present (u : option jsstring) : Prop :=
  exists s, u = Some s /\ s <> [].

End Dialect.

(* ================================================================== *)
(** ** Notions used to state and prove the properties *)
(* ================================================================== *)

Module Notions.
Import Preview Dialect BookDetail BookCreator.

(** *** About the matcher *)

(** [j] repetitions respect the upper bound [hi]. *)
Definition fits (hi : option nat) (j : nat) : Prop :=
  match hi with Some h => j <= h | None => True end.

(** The continuation [k] as it is called after a repetition consumed
    [x]. *)
Definition after_rep
           (k : jsstring -> jsstring -> jsstring -> nat -> option mres)
           (before acc : jsstring) (n : nat)
           (x rest : jsstring) : option mres :=
  k (rev x ++ before) rest (rev x ++ acc) (length x + n).

(** Group 1 after a repetition consumed [x]: [x] if it captures. *)
Definition kept (cap : bool) (g x : jsstring) : jsstring :=
  if cap then x else g.

(** [lo] to [hi] asterisks, a lazy non-empty group, [lo] to [hi]
    asterisks. *)
Definition re_stars (lo hi : nat) : regex :=
  [Rep false isStar lo (Some hi) true; Rep true isDot 1 None false;
   Rep false isStar lo (Some hi) true].

Definition between (lo hi j : nat) : bool := (lo <=? j) && (j <=? hi).

(** *** About a line of spans *)

(** A pass that rewrites the runs whose level is in [hit] with [f] turns
    them into plain text. *)
Definition settle (f : jsstring -> jsstring) (hit : nat -> bool)
           (sp : span) : span :=
  if hit (level sp) then Plain (f (body sp)) else sp.

(** The runs a pass can cope with: those it rewrites and those with fewer
    than [d] asterisks. *)
Definition in_reach (d : nat) (hit : nat -> bool) (sp : span) : Prop :=
  level sp < d \/ hit (level sp) = true.

Definition upto (n : nat) (l : list span) : Prop :=
  Forall (fun sp => level sp <= n) l.

Definition sample_line : list span :=
  [Plain (lit "A "); Strong (lit "bold"); Plain (lit " and "); Em (lit "it");
   Plain (lit ", "); StrongEm (lit "both"); Plain (lit ".")].

(** *** About books and polls *)

Definition empty_book : book :=
  Book (lit "My  first book") (lit "outline_ready") None None.


Definition written_book : book :=
  Book (lit "My  first book") (lit "writing")
       (Some [Chapter 2 (lit "Two") (Some (lit "# b")) None;
              Chapter 1 (lit "One") (Some (lit "# a")) (Some (lit "/api/images/1"))])
       (Some [OutlineEntry 1 (lit "One"); OutlineEntry 2 (lit "Two");
              OutlineEntry 3 (lit "Three")]).

(** A poll of the book-detail page that answers with a status other than
    "writing". *)
Definition polls_away (e : poll_event) : Prop :=
  exists pr, e = Answer (Resolved pr) /\ progress_status pr <> lit "writing".

(** The events come in turn: every firing is answered before the next
    event, so that no two calls are awaited together. *)
Inductive in_turn : list poll_event -> Prop :=
| turn_end : in_turn []
| turn_cleanup es : in_turn es -> in_turn (Cleanup :: es)
| turn_poll r es : in_turn es -> in_turn (Fire :: Answer r :: es).

(** A progress result that ends the writing. *)
Definition done : progress_result :=
  ProgressResult (lit "chapters_complete") None.

(** A progress report that ends the creation flow. *)
Definition finished : writing_progress :=
  WritingProgress (lit "chapters_complete") None 3 3.

(** The statuses that end the creation-flow poll. *)
Definition terminal (p : writing_progress) : Prop :=
  wp_status p = lit "chapters_complete" \/ wp_status p = lit "error".

(** A creation-flow poll that does not end the loop: a failed call, or a
    status that is neither "chapters_complete" nor "error". *)
Definition goes_on (r : response writing_progress) : Prop :=
  match r with Resolved p => ~ terminal p | Rejected _ => True end.

End Notions.

(* ================================================================== *)
(** ** The chapter list and the remaining handlers of the book detail page *)
(* ================================================================== *)

Module ChapterList.
Import Preview BookDetail.

(** [lines.join("\n")], the inverse of [split]. *)
Fixpoint join (sep : char) (ls : list jsstring) : jsstring :=
  match ls with
  | [] => []
  | l :: ls' =>
      match ls' with
      | [] => l
      | _ :: _ => l ++ sep :: join sep ls'
      end
  end.

Definition newline : char := code "010".

(** Number of occurrences of a code unit. *)
Definition occurrences (c : char) (s : jsstring) : nat :=
  count_occ N.eq_dec s c.

(** [chapter.content?.split("\n").length > 30]: whether the card shows
    the hint to open the full preview. *)
Definition card_hint (content : option jsstring) : bool :=
  match content with
  | Some c => 30 <? length (lines c)
  | None => false
  end.

(** [chapters.find((c) => c.chapter_number === outlineCh.chapter_number)] *)
Definition find_chapter (n : Z) (l : list chapter) : option chapter :=
  find (fun c => (chapter_number c =? n)%Z) l.

(** One card of the chapter list: an outline entry with the chapter found
    for it. *)
Record row : Type := Row {
  row_entry : outline_entry;
  row_chapter : option chapter
}.

(** [const isGenerated = !!chapter] *)
Definition isGenerated (r : row) : bool :=
  match row_chapter r with Some _ => true | None => false end.

(** [const hasImage = chapter?.image_url], as a condition. *)
Definition hasImage (r : row) : bool :=
  match row_chapter r with
  | Some c => truthy_opt (image_url c)
  | None => false
  end.

(** [outline.map((outlineCh) => ...)] *)
Definition chapter_rows (b : book) : list row :=
  map (fun e => Row e (find_chapter (entry_number e) (sorted_chapters b)))
      (or_empty (outline b)).

(** The buttons of an expanded card. *)
Inductive row_control : Type :=
| GenerateChapterButton (chapterNum : Z)
| RegenerateImageButton (chapterNum : Z)
| DeleteImageButton (chapterNum : Z)
| GenerateImageButton (chapterNum : Z).

Definition row_controls (r : row) : list row_control :=
  let n := entry_number (row_entry r) in
  if isGenerated r
  then if hasImage r
       then [RegenerateImageButton n; DeleteImageButton n]
       else [GenerateImageButton n]
  else [GenerateChapterButton n].

(** The effects of the four handlers: those of [handleGenerateImage] and
    [handleExport], and what [handleGenerateChapter] and
    [handleDeleteImage] add. *)
Inductive page_effect : Type :=
| Base (e : effect)
| SetGeneratingChapter (chapterNum : option Z)
| SetDeletingImage (chapterNum : option Z)
| ToastChapterGenerated (chapterNum : Z)   (* `Chapter ${n} generated!` *)
| ToastImageRemoved                        (* "Image removed" *)
| GetBook                                  (* getBook(bookId) *)
| SetBook (data : book)
| ToastLoadFailed                          (* "Failed to load book" *)
| NavigateLibrary                          (* navigate("/library") *)
| SetLoading (on : bool).

(** [fetchBook], given what [getBook] answers: [try { data = await
    getBook(bookId); setBook(data) } catch (err) { toast.error("Failed to
    load book"); navigate("/library") } finally { setLoading(false) }].
    It catches its own errors: [await fetchBook()] never throws. *)
Definition fetchBook (g : response book) : list page_effect :=
  [GetBook] ++
  match g with
  | Resolved data => [SetBook data]
  | Rejected _ => [ToastLoadFailed; NavigateLibrary]
  end ++
  [SetLoading false].

(** The effects of a handler of the page, with its call of [fetchBook]
    carried out. *)
Definition refetch (g : response book) (e : effect) : list page_effect :=
  match e with
  | FetchBook => fetchBook g
  | _ => [Base e]
  end.

(** The names that src/frontend/src/lib/api.js exports. *)
Definition api_exports : list string :=
  ["getSettings"; "updateSettings"; "discoverThemes"; "generateIdeas";
   "createBook"; "getBooks"; "getBook"; "deleteBook"; "getBookProgress";
   "generateOutline"; "updateOutline"; "generateChapter";
   "generateAllChapters"; "generateChapterImage"; "exportBook"]%string.

(** [await name(...)] for a function imported from the API module, which
    answers [r] if it is there.  A name the module does not export is
    bound to [undefined]: the call throws, inside the [try], an error that
    carries no [response]. *)
Definition imported {A : Type} (name : string) (r : response A)
  : response A :=
  if existsb (String.eqb name) api_exports then r else Rejected None.

(** [handleGenerateChapter]: [setGeneratingChapter(chapterNum); try {
    await generateChapter(bookId, chapterNum); await fetchBook();
    toast.success(...) } catch (err) { toast.error(detail || "Failed to
    generate chapter") } finally { setGeneratingChapter(null) }] *)
Definition handleGenerateChapter (chapterNum : Z) (r : response unit)
           (g : response book) : list page_effect :=
  [SetGeneratingChapter (Some chapterNum)] ++
  match imported "generateChapter" r with
  | Resolved _ => fetchBook g ++ [ToastChapterGenerated chapterNum]
  | Rejected detail =>
      [Base (ToastError
               (Failure (or_else detail (lit "Failed to generate chapter"))))]
  end ++
  [SetGeneratingChapter None].

(** [handleDeleteImage]: [setDeletingImage(chapterNum); try { await
    deleteChapterImage(bookId, chapterNum); await fetchBook();
    toast.success("Image removed") } catch (err) { toast.error("Failed to
    delete image") } finally { setDeletingImage(null) }] *)
Definition handleDeleteImage (chapterNum : Z) (r : response unit)
           (g : response book) : list page_effect :=
  [SetDeletingImage (Some chapterNum)] ++
  match imported "deleteChapterImage" r with
  | Resolved _ => fetchBook g ++ [ToastImageRemoved]
  | Rejected _ =>
      [Base (ToastError (Failure (lit "Failed to delete image")))]
  end ++
  [SetDeletingImage None].

(** A click on one of the page's buttons, with the answer the API gives
    to the request if it is made. *)
Inductive click : Type :=
| ClickGenerateChapter (chapterNum : Z) (r : response unit)
| ClickGenerateImage (chapterNum : Z) (r : response image_result)
| ClickDeleteImage (chapterNum : Z) (r : response unit)
| ClickExport (format : jsstring) (r : response jsstring).

(** What a click does, [g] being the answer of [getBook] if the handler
    comes to call [fetchBook]. *)
Definition click_effects (b : book) (c : click) (g : response book)
  : list page_effect :=
  match c with
  | ClickGenerateChapter n r => handleGenerateChapter n r g
  | ClickGenerateImage n r =>
      flat_map (refetch g) (handleGenerateImage n (imported "generateChapterImage" r))
  | ClickDeleteImage n r => handleDeleteImage n r g
  | ClickExport format r =>
      flat_map (refetch g) (handleExport b format (imported "exportBook" r))
  end.

(** The loading and busy flags of the page ([useState]). *)
Record flags : Type := Flags {
  loading : bool;
  exporting : bool;
  generatingChapter : option Z;
  generatingImage : option Z;
  deletingImage : option Z
}.

Definition apply_effect (f : flags) (e : page_effect) : flags :=
  match e with
  | SetLoading on =>
      Flags on (exporting f) (generatingChapter f) (generatingImage f)
            (deletingImage f)
  | Base (SetExporting on) =>
      Flags (loading f) on (generatingChapter f) (generatingImage f)
            (deletingImage f)
  | Base (SetGeneratingImage n) =>
      Flags (loading f) (exporting f) (generatingChapter f) n (deletingImage f)
  | SetGeneratingChapter n =>
      Flags (loading f) (exporting f) n (generatingImage f) (deletingImage f)
  | SetDeletingImage n =>
      Flags (loading f) (exporting f) (generatingChapter f) (generatingImage f) n
  | _ => f
  end.

Definition apply_effects (f : flags) (es : list page_effect) : flags :=
  fold_left apply_effect es f.

Definition is_toast (e : page_effect) : bool :=
  match e with
  | Base (ToastSuccess _) | Base (ToastError _)
  | ToastChapterGenerated _ | ToastImageRemoved | ToastLoadFailed => true
  | _ => false
  end.

Definition is_success (e : page_effect) : bool :=
  match e with
  | Base (ToastSuccess _) | ToastChapterGenerated _ | ToastImageRemoved => true
  | _ => false
  end.

Definition is_fetch (e : page_effect) : bool :=
  match e with GetBook => true | _ => false end.

(** *** Notions about the list and the handlers *)

Definition has_number (n : Z) (c : chapter) : bool :=
  (chapter_number c =? n)%Z.

Definition by_number (a b : chapter) : Prop :=
  (chapter_number a <= chapter_number b)%Z.

Definition chapter_numbers (b : book) : list Z :=
  map chapter_number (or_empty (chapters b)).

Definition outline_numbers (b : book) : list Z :=
  map entry_number (or_empty (outline b)).

(** Whether the request behind a click did what was asked. *)
Definition succeeded (c : click) : bool :=
  match c with
  | ClickGenerateChapter _ r =>
      match imported "generateChapter" r with
      | Resolved _ => true
      | Rejected _ => false
      end
  | ClickGenerateImage _ r =>
      match imported "generateChapterImage" r with
      | Resolved result => truthy_opt (result_image_url result)
      | Rejected _ => false
      end
  | ClickDeleteImage _ r =>
      match imported "deleteChapterImage" r with
      | Resolved _ => true
      | Rejected _ => false
      end
  | ClickExport _ r =>
      match imported "exportBook" r with
      | Resolved _ => true
      | Rejected _ => false
      end
  end.

(** Whether the click comes to reload the book: every handler but the
    export does after a success. *)
Definition reloads (c : click) : bool :=
  match c with
  | ClickExport _ _ => false
  | _ => succeeded c
  end.

Definition fails {A : Type} (g : response A) : bool :=
  match g with Rejected _ => true | Resolved _ => false end.

(** The flags with the one of the clicked button cleared, and [loading]
    cleared if the book was reloaded. *)
Definition idle_after (c : click) (f : flags) : flags :=
  let l := if reloads c then false else loading f in
  match c with
  | ClickGenerateChapter _ _ =>
      Flags l (exporting f) None (generatingImage f) (deletingImage f)
  | ClickGenerateImage _ _ =>
      Flags l (exporting f) (generatingChapter f) None (deletingImage f)
  | ClickDeleteImage _ _ =>
      Flags l (exporting f) (generatingChapter f) (generatingImage f) None
  | ClickExport _ _ =>
      Flags l false (generatingChapter f) (generatingImage f) (deletingImage f)
  end.

Definition no_space (s : jsstring) : Prop :=
  forallb (fun c => negb (isWhiteSpace c)) s = true.

End ChapterList.

(* ================================================================== *)
(** ** The creation flow (BookCreator): the steps before polling *)
(* ================================================================== *)

Module CreatorFlow.
Import BookDetail BookCreator.

Record idea : Type := Idea {
  idea_title : jsstring;
  idea_subtitle : option jsstring;
  idea_description : jsstring;
  idea_category : jsstring;
  estimated_pages : option Z     (* a number; missing, or NaN after an edit *)
}.

(** What [generateIdeas] resolves with. *)
Record ideas_data : Type := IdeasData {
  data_ideas : option (list idea);
  data_error : option jsstring
}.

(** The body of the [createBook] request. *)
Record book_payload : Type := BookPayload {
  payload_title : jsstring;
  payload_subtitle : option jsstring;
  payload_description : jsstring;
  payload_category : jsstring;
  payload_language : jsstring;
  target_pages : Z;
  image_source : jsstring
}.

Record created_book : Type := CreatedBook { book_id : jsstring }.

Record outline_data : Type := OutlineData {
  data_outline : option (list outline_entry)
}.

Inductive step_action : Type :=
| Error (text : jsstring)                      (* toast.error *)
| Success (text : jsstring)                    (* toast.success *)
| SetLoading (on : bool)
| CallGenerateIdeas (theme language : jsstring)
| SetIdeas (ideas : list idea)
| CallCreateBook (payload : book_payload)
| SetBookId (id : jsstring)
| CallGenerateOutline (id : jsstring)
| SetOutline (outline : list outline_entry)
| SetStep (n : nat)
| CallUpdateOutline (id : jsstring) (outline : list outline_entry)
| CallGenerateAllChapters (id : jsstring)
| StartPoll (id : jsstring).                   (* pollProgress() *)

(** [language === "fr" ? fr : en] *)
Definition say (language : jsstring) (fr en : string) : jsstring :=
  if streq language (lit "fr") then lit fr else lit en.

(** [x || 100] for a number [x]: 0, NaN and undefined give 100. *)
Definition or_hundred (x : option Z) : Z :=
  match x with
  | Some 0%Z | None => 100%Z
  | Some n => n
  end.

(** [handleGenerateIdeas], given what [generateIdeas] answers if it is
    called: [if (!theme.trim()) { toast.error(...); return; }
    setLoading(true); try { data = await generateIdeas({ theme, language });
    if (data.ideas?.length > 0) { setIdeas(data.ideas); toast.success(...) }
    else { toast.error(data.error || "No ideas generated") } } catch (err)
    { toast.error(detail || "Failed to generate ideas") } finally {
    setLoading(false) }] *)
Definition handleGenerateIdeas (theme language : jsstring)
           (r : response ideas_data) : list step_action :=
  if negb (truthy (trim theme))
  then [Error (say language "Entrez une thematique" "Enter a theme")]
  else
    [SetLoading true; CallGenerateIdeas theme language] ++
    match r with
    | Resolved data =>
        if 0 <? length (or_empty (data_ideas data))
        then [SetIdeas (or_empty (data_ideas data));
              Success (say language "Idees generees !" "Ideas generated!")]
        else [Error (or_else (data_error data) (lit "No ideas generated"))]
    | Rejected detail =>
        [Error (or_else detail (lit "Failed to generate ideas"))]
    end ++
    [SetLoading false].

(** [location.state] as the dashboard sets it. *)
Record nav_state : Type := NavState {
  nav_theme : option jsstring;
  nav_language : option jsstring
}.

(** [location.state?.theme || ""] and [location.state?.language || "fr"] *)
Definition themeFromDashboard (st : option nav_state) : jsstring :=
  or_else (match st with Some s => nav_theme s | None => None end) [].

Definition langFromDashboard (st : option nav_state) : jsstring :=
  or_else (match st with Some s => nav_language s | None => None end)
          (lit "fr").

(** The first effect of the page: [if (themeFromDashboard && ideas.length
    === 0) handleGenerateIdeas()], run once on mount, when [ideas] is
    still empty and [theme] and [language] hold their initial values. *)
Definition on_mount (st : option nav_state) (r : response ideas_data)
  : list step_action :=
  if truthy (themeFromDashboard st)
  then handleGenerateIdeas (themeFromDashboard st) (langFromDashboard st) r
  else [].

(** [handleCreateBook], given the answers of [createBook] and of
    [generateOutline]. *)
Definition create_payload (i : idea) (language imageSource : jsstring)
  : book_payload :=
  BookPayload (idea_title i) (idea_subtitle i) (idea_description i)
              (idea_category i) language (or_hundred (estimated_pages i))
              imageSource.

Definition handleCreateBook (selectedIdea : option idea)
           (language imageSource : jsstring)
           (r1 : response created_book) (r2 : response outline_data)
  : list step_action :=
  match selectedIdea with
  | None => []
  | Some i =>
      [SetLoading true;
       CallCreateBook (create_payload i language imageSource)] ++
      match r1 with
      | Resolved book =>
          [SetBookId (book_id book);
           Success (say language "Livre cree ! Generation du plan..."
                        "Book created! Generating outline...");
           CallGenerateOutline (book_id book)] ++
          match r2 with
          | Resolved outlineData =>
              match data_outline outlineData with
              | Some o =>
                  [SetOutline o; SetStep 2;
                   Success (say language "Plan genere !" "Outline generated!")]
              | None => []
              end
          | Rejected detail =>
              [Error (or_else detail (lit "Failed to create book"))]
          end
      | Rejected detail =>
          [Error (or_else detail (lit "Failed to create book"))]
      end ++
      [SetLoading false]
  end.





(** *** Notions about the flow *)

Definition resolved {A} (r : response A) : Prop := exists data, r = Resolved data.

Definition is_clear (a : action) : bool :=
  match a with ClearInterval => true | _ => false end.

Definition is_navigate (a : action) : bool :=
  match a with Navigate _ => true | _ => false end.

(** The theme is not blank: it has a character that is not whitespace. *)
Definition filled (theme : jsstring) : Prop :=
  forallb isWhiteSpace theme = false.

End CreatorFlow.

(* ================================================================== *)
(** ** The dashboard (Dashboard.js): choosing a theme *)
(* ================================================================== *)

Module Dashboard.
Import CreatorFlow.

Record theme_card : Type := ThemeCard { theme_title : option jsstring }.

(** [navigate("/create", { state: { theme: theme.title, language } })] *)
Definition handleSelectTheme (theme : theme_card) (language : jsstring)
  : jsstring * nav_state :=
  (lit "/create", NavState (theme_title theme) (Some language)).

End Dashboard.

(* ================================================================== *)
(** ** Facts about strings and the matcher *)
(* ================================================================== *)

Module JsFacts.

Lemma trimStart_nil_iff (s : jsstring) :
  trimStart s = [] <-> forallb isWhiteSpace s = true.
Proof.
  induction s as [|c s IH]; simpl.
  - tauto.
  - destruct (isWhiteSpace c); simpl.
    + exact IH.
    + split; discriminate.
Qed.

Lemma trimStart_head (s : jsstring) c t :
  trimStart s = c :: t -> isWhiteSpace c = false.
Proof.
  induction s as [|a s IH]; simpl; [discriminate|].
  destruct (isWhiteSpace a) eqn:E; [exact IH|].
  intros H; injection H as <- _; exact E.
Qed.

Lemma forallb_rev {A} (p : A -> bool) (l : list A) :
  forallb p (rev l) = forallb p l.
Proof.
  induction l as [|a l IH]; simpl; [reflexivity|].
  rewrite forallb_app, IH; simpl. rewrite andb_true_r, andb_comm. reflexivity.
Qed.

Lemma trim_nil_iff (s : jsstring) :
  trim s = [] <-> forallb isWhiteSpace s = true.
Proof.
  unfold trim, trimEnd. split.
  - intros H. apply (f_equal (@rev char)) in H. rewrite rev_involutive in H.
    simpl in H. apply trimStart_nil_iff in H. rewrite forallb_rev in H.
    destruct (trimStart s) as [|c t] eqn:E.
    + apply trimStart_nil_iff; exact E.
    + apply trimStart_head in E. simpl in H. rewrite E in H. discriminate.
  - intros H. apply trimStart_nil_iff in H. rewrite H. reflexivity.
Qed.

Lemma isHash_eq c : isHash c = true -> c = code "#".
Proof. unfold isHash, isChar. apply N.eqb_eq. Qed.

Lemma isStar_eq c : isStar c = true -> c = code "*".
Proof. unfold isStar, isChar. apply N.eqb_eq. Qed.

Lemma forallb_isHash (x : jsstring) :
  forallb isHash x = true -> x = repeat (code "#") (length x).
Proof.
  induction x as [|c x IH]; simpl; [reflexivity|].
  intros H. apply andb_prop in H as [Hc Hx].
  rewrite (isHash_eq _ Hc) at 1. f_equal. exact (IH Hx).
Qed.

Lemma forallb_repeat {A} (p : A -> bool) a n :
  p a = true -> forallb p (repeat a n) = true.
Proof. intros H. induction n; simpl; [reflexivity|]. rewrite H; exact IHn. Qed.

(** A run of characters of one class cannot extend past a character
    outside the class. *)
Lemma run_bound (cls : char -> bool) x rest x' rest' :
  x ++ rest = x' ++ rest' -> forallb cls x' = true -> stops cls rest ->
  length x' <= length x.
Proof.
  revert x'. induction x as [|a x IH]; intros x' E F S.
  - destruct x' as [|a' x']; simpl; [lia|]. simpl in E, F.
    subst rest. simpl in S. apply andb_prop in F as [F _]. congruence.
  - destruct x' as [|a' x']; simpl; [lia|]. simpl in E, F.
    injection E as -> E. apply andb_prop in F as [_ F].
    specialize (IH _ E F S). lia.
Qed.

Lemma app_split_length {A} (x x' r r' : list A) :
  x ++ r = x' ++ r' -> length x = length x' -> x = x' /\ r = r'.
Proof.
  revert x'. induction x as [|a x IH]; intros [|a' x'] E L;
    simpl in *; try discriminate; [tauto|].
  injection E as -> E. injection L as L. destruct (IH _ E L) as [-> ->]. tauto.
Qed.

(** A strictly shorter prefix of [x ++ r] leaves a rest that starts with
    a character of [x]. *)
Lemma shorter_prefix {A} (x x' r r' : list A) :
  x ++ r = x' ++ r' -> length x' < length x ->
  exists c y, x = x' ++ c :: y /\ r' = c :: y ++ r.
Proof.
  revert x'. induction x as [|a x IH]; intros x' E L; simpl in L; [lia|].
  destruct x' as [|a' x'].
  - exists a, x. simpl in E. rewrite <- E. tauto.
  - simpl in E, L. injection E as -> E.
    destruct (IH x' E ltac:(lia)) as (c & y & -> & ->).
    exists c, y. tauto.
Qed.

End JsFacts.

Module RegexFacts.
Import Notions JsFacts.

Lemma fits_less hi j : fits (less hi) j -> room hi = true -> fits hi (S j).
Proof. destruct hi as [[|h]|]; simpl; try discriminate; intros; lia. Qed.

Lemma fits_S hi j : fits hi (S j) -> room hi = true /\ fits (less hi) j.
Proof. destruct hi as [[|h]|]; simpl; intros; try lia; split; auto; lia. Qed.

Section Rep.
Variable k : jsstring -> jsstring -> jsstring -> nat -> option mres.
Variable cls : char -> bool.

Lemma after_rep_cons before acc n c x rest :
  after_rep k (c :: before) (c :: acc) (S n) x rest
  = after_rep k before acc n (c :: x) rest.
Proof.
  unfold after_rep. simpl. rewrite <- !app_assoc. simpl.
  replace (length x + S n) with (S (length x + n)) by lia. reflexivity.
Qed.

(** Whatever the repetition returns comes from the continuation at
    some admissible split. *)
Lemma rep_elim greedy r : forall after lo hi before acc n,
  rep k cls lo hi greedy before after acc n = Some r ->
  exists x rest,
    after = x ++ rest /\ forallb cls x = true /\
    lo <= length x /\ fits hi (length x) /\
    after_rep k before acc n x rest = Some r.
Proof.
  assert (Stop : forall after lo hi before acc n,
             match lo with 0 => k before after acc n | S _ => None end = Some r ->
             exists x rest,
               after = x ++ rest /\ forallb cls x = true /\
               lo <= length x /\ fits hi (length x) /\
               after_rep k before acc n x rest = Some r).
  { intros after lo hi before acc n H. destruct lo; [|discriminate].
    exists [], after. repeat split; auto.
    destruct hi; simpl; lia. }
  induction after as [|c after IH]; intros lo hi before acc n H.
  - simpl in H. apply (Stop [] lo hi before acc n).
    destruct greedy; simpl in H; [exact H|].
    destruct lo; [destruct (k before [] acc n)|]; simpl in H; congruence.
  - simpl in H.
    assert (More : (if cls c && room hi
                    then rep k cls (pred lo) (less hi) greedy
                             (c :: before) after (c :: acc) (S n)
                    else None) = Some r ->
                   exists x rest,
                     c :: after = x ++ rest /\ forallb cls x = true /\
                     lo <= length x /\ fits hi (length x) /\
                     after_rep k before acc n x rest = Some r).
    { destruct (cls c) eqn:Ec; simpl; [|discriminate].
      destruct (room hi) eqn:Er; [|discriminate].
      intros H'. destruct (IH _ _ _ _ _ H') as (x & rest & -> & F & L & Fi & K).
      exists (c :: x), rest. simpl. rewrite Ec.
      repeat split; auto; [lia|apply fits_less; assumption|].
      rewrite <- after_rep_cons. exact K. }
    destruct greedy; unfold orelse in H.
    + destruct (if cls c && room hi then _ else None) as [r'|] eqn:E.
      * apply More. congruence.
      * apply (Stop _ lo hi before acc n). exact H.
    + destruct (match lo with 0 => _ | S _ => None end) as [r'|] eqn:E.
      * apply (Stop _ lo hi before acc n). congruence.
      * apply More. exact H.
Qed.

Lemma rep_none greedy after lo hi before acc n :
  (forall x rest, after = x ++ rest -> forallb cls x = true ->
                  lo <= length x -> fits hi (length x) ->
                  after_rep k before acc n x rest = None) ->
  rep k cls lo hi greedy before after acc n = None.
Proof.
  intros H. destruct (rep _ _ _ _ _ _ _ _ _) as [r|] eqn:E; [|reflexivity].
  apply rep_elim in E as (x & rest & E1 & F & L & Fi & K).
  rewrite (H x rest E1 F L Fi) in K. discriminate.
Qed.

(** Lazy repetition returns the continuation's answer at the shortest
    admissible split where the continuation succeeds. *)
Lemma rep_lazy r : forall x rest lo hi before acc n,
  forallb cls x = true -> lo <= length x -> fits hi (length x) ->
  after_rep k before acc n x rest = Some r ->
  (forall x' rest', x ++ rest = x' ++ rest' -> length x' < length x ->
                    lo <= length x' ->
                    after_rep k before acc n x' rest' = None) ->
  rep k cls lo hi false before (x ++ rest) acc n = Some r.
Proof.
  induction x as [|c x IH]; intros rest lo hi before acc n F L Fi K Min.
  - simpl in L. assert (lo = 0) as -> by lia.
    unfold after_rep in K. simpl in K.
    destruct rest; simpl; rewrite K; reflexivity.
  - simpl in F. apply andb_prop in F as [Fc F].
    simpl in Fi. apply fits_S in Fi as [Ro Fi].
    simpl. rewrite Fc, Ro. simpl.
    assert (St : match lo with
                 | 0 => k before (c :: x ++ rest) acc n
                 | S _ => None end = None).
    { destruct lo; [|reflexivity].
      apply (Min [] (c :: x ++ rest)); simpl; auto; lia. }
    rewrite St. simpl.
    apply IH; auto.
    + simpl in L. lia.
    + rewrite after_rep_cons. exact K.
    + intros x' rest' E Lt Lo. rewrite after_rep_cons.
      apply Min; simpl; [congruence|lia|lia].
Qed.

(** Greedy repetition returns the continuation's answer at the longest
    admissible split where the continuation succeeds. *)
Lemma rep_greedy r : forall x rest lo hi before acc n,
  forallb cls x = true -> lo <= length x -> fits hi (length x) ->
  after_rep k before acc n x rest = Some r ->
  (forall x' rest', x ++ rest = x' ++ rest' -> length x < length x' ->
                    forallb cls x' = true -> fits hi (length x') ->
                    after_rep k before acc n x' rest' = None) ->
  rep k cls lo hi true before (x ++ rest) acc n = Some r.
Proof.
  induction x as [|c x IH]; intros rest lo hi before acc n F L Fi K Max.
  - simpl in L. assert (lo = 0) as -> by lia.
    unfold after_rep in K. simpl in K. simpl app.
    destruct rest as [|c rest]; simpl; [exact K|].
    destruct (cls c && room hi) eqn:E; [|exact K].
    apply andb_prop in E as [Ec Er].
    rewrite rep_none; [exact K|].
    intros x rest' -> Fx _ Fix. rewrite after_rep_cons.
    apply Max; simpl; auto; [lia|rewrite Ec; exact Fx|].
    apply fits_less; assumption.
  - simpl in F. apply andb_prop in F as [Fc F].
    simpl in Fi. apply fits_S in Fi as [Ro Fi].
    simpl. rewrite Fc, Ro. simpl.
    rewrite (IH rest (pred lo) (less hi) (c :: before) (c :: acc) (S n));
      auto.
    + simpl in L. lia.
    + rewrite after_rep_cons. exact K.
    + intros x' rest' E Lt Fx' Fix'. rewrite after_rep_cons.
      apply Max; simpl; [congruence|lia|rewrite Fc; exact Fx'|].
      apply fits_less; assumption.
Qed.

End Rep.

(** A pattern anchored with [^] only matches at the start of the
    subject. *)
Lemma exec_from_bol r c before after :
  exec_from (Bol :: r) (c :: before) after = None.
Proof.
  revert c before. induction after as [|a after IH]; intros c before.
  - reflexivity.
  - simpl. unfold matchAt. simpl. apply IH.
Qed.

Lemma exec_bol r s : exec (Bol :: r) s = run r [] s [] 0.
Proof.
  unfold exec. destruct s as [|c s]; simpl; unfold matchAt; simpl.
  - destruct (run r [] [] [] 0); reflexivity.
  - destruct (run r [] (c :: s) [] 0); [reflexivity|apply exec_from_bol].
Qed.

Lemma replace_bol_some r f s m :
  run r [] s [] 0 = Some m ->
  replace (Bol :: r) f s = f (group1 m) ++ skipn (taken m) s.
Proof.
  intros H. unfold replace.
  destruct s; simpl; unfold matchAt; simpl; rewrite H; reflexivity.
Qed.

(** The same facts, read on [run]. *)
Section Run.
Variables (cap : bool) (cls : char -> bool) (lo : nat) (hi : option nat).
Variable r : regex.

Lemma after_rep_run before g n x rest :
  after_rep (fun b a acc m => run r b a (if cap then rev acc else g) m)
            before [] n x rest
  = run r (rev x ++ before) rest (kept cap g x) (length x + n).
Proof.
  unfold after_rep, kept. rewrite app_nil_r, rev_involutive. reflexivity.
Qed.

Lemma run_rep_elim greedy before after g n m :
  run (Rep cap cls lo hi greedy :: r) before after g n = Some m ->
  exists x rest,
    after = x ++ rest /\ forallb cls x = true /\
    lo <= length x /\ fits hi (length x) /\
    run r (rev x ++ before) rest (kept cap g x) (length x + n) = Some m.
Proof.
  simpl. intros H.
  apply rep_elim in H as (x & rest & E & F & L & Fi & K).
  exists x, rest. rewrite after_rep_run in K. auto.
Qed.

Lemma run_rep_none greedy before after g n :
  (forall x rest, after = x ++ rest -> forallb cls x = true ->
                  lo <= length x -> fits hi (length x) ->
                  run r (rev x ++ before) rest (kept cap g x) (length x + n)
                  = None) ->
  run (Rep cap cls lo hi greedy :: r) before after g n = None.
Proof.
  intros H. simpl. apply rep_none. intros x rest E F L Fi.
  rewrite after_rep_run. auto.
Qed.

(** Greedy repetition that swallows a whole run of the class. *)
Lemma run_rep_munch before x rest g n m :
  forallb cls x = true -> lo <= length x -> fits hi (length x) ->
  stops cls rest \/ hi = Some (length x) ->
  run r (rev x ++ before) rest (kept cap g x) (length x + n) = Some m ->
  run (Rep cap cls lo hi true :: r) before (x ++ rest) g n = Some m.
Proof.
  intros F L Fi Stop K. simpl. apply rep_greedy with (x := x); auto.
  - rewrite after_rep_run. exact K.
  - intros x' rest' E Lt F' Fi'. exfalso. destruct Stop as [St| ->].
    + pose proof (run_bound cls x rest x' rest' E F' St). lia.
    + simpl in Fi'. lia.
Qed.

Lemma run_rep_lazy before x rest g n m :
  forallb cls x = true -> lo <= length x -> fits hi (length x) ->
  run r (rev x ++ before) rest (kept cap g x) (length x + n) = Some m ->
  (forall x' rest', x ++ rest = x' ++ rest' -> length x' < length x ->
                    lo <= length x' ->
                    run r (rev x' ++ before) rest' (kept cap g x')
                        (length x' + n) = None) ->
  run (Rep cap cls lo hi false :: r) before (x ++ rest) g n = Some m.
Proof.
  intros F L Fi K Min. simpl. apply rep_lazy with (x := x); auto.
  - rewrite after_rep_run. exact K.
  - intros x' rest' E Lt Lo. rewrite after_rep_run. auto.
Qed.

End Run.

Lemma run_one cls r before after g n :
  run (One cls :: r) before after g n
  = match after with
    | c :: a => if cls c then run r (c :: before) a g (S n) else None
    | [] => None
    end.
Proof.
  unfold One. destruct after as [|c a]; [reflexivity|].
  cbn [run rep room less option_map pred].
  destruct (cls c); cbn [andb orelse]; [|reflexivity].
  destruct a as [|c' a]; cbn [rep room less option_map pred orelse].
  - destruct (run r (c :: before) [] g (S n)); reflexivity.
  - rewrite andb_false_r. cbn [orelse].
    destruct (run r (c :: before) (c' :: a) g (S n)); reflexivity.
Qed.


End RegexFacts.

Module PreviewFacts.
Import Preview Dialect Notions JsFacts RegexFacts.

(** *** Character classes *)

Lemma ws_not_hash w : isWhiteSpace w = true -> isHash w = false.
Proof.
  intros W. destruct (isHash w) eqn:E; [|reflexivity].
  apply isHash_eq in E. subst w. discriminate.
Qed.

Lemma dashstar_cases m :
  isDashOrStar m = true -> m = code "-" \/ m = code "*".
Proof.
  unfold isDashOrStar, isChar. intros H.
  apply orb_prop in H as [H|H]; apply N.eqb_eq in H; auto.
Qed.

Lemma dotparen_cases p :
  isDotOrParen p = true -> p = code "." \/ p = code ")".
Proof.
  unfold isDotOrParen, isChar. intros H.
  apply orb_prop in H as [H|H]; apply N.eqb_eq in H; auto.
Qed.

Lemma dashstar_not_hash m : isDashOrStar m = true -> isHash m = false.
Proof. intros H. destruct (dashstar_cases _ H); subst; reflexivity. Qed.

Lemma dotparen_not_digit p : isDotOrParen p = true -> isDigit p = false.
Proof. intros H. destruct (dotparen_cases _ H); subst; reflexivity. Qed.

Lemma digit_range d : isDigit d = true -> (48 <= d <= 57)%N.
Proof.
  unfold isDigit. intros H. apply andb_prop in H as [A B].
  apply N.leb_le in A, B. lia.
Qed.

Lemma digit_not_hash d : isDigit d = true -> isHash d = false.
Proof.
  intros H. apply digit_range in H. unfold isHash, isChar.
  apply N.eqb_neq. change (code "#") with 35%N. lia.
Qed.

Lemma digit_not_dashstar d : isDigit d = true -> isDashOrStar d = false.
Proof.
  intros H. apply digit_range in H. unfold isDashOrStar, isChar.
  apply orb_false_iff. split; apply N.eqb_neq.
  - change (code "-") with 45%N. lia.
  - change (code "*") with 42%N. lia.
Qed.

Lemma hash_not_dashstar : isDashOrStar hash = false.
Proof. reflexivity. Qed.

Lemma hash_not_digit : isDigit hash = false.
Proof. reflexivity. Qed.

(** *** Lists *)

Lemma skipn_all_app {A} (a b : list A) : skipn (length a) (a ++ b) = b.
Proof. induction a; simpl; auto. Qed.

Lemma skipn_marker {A} (a b c : list A) :
  skipn (length b + (length a + 0)) (a ++ b ++ c) = c.
Proof.
  rewrite app_assoc.
  replace (length b + (length a + 0)) with (length (a ++ b))
    by (rewrite length_app; lia).
  apply skipn_all_app.
Qed.

(** Whitespace followed by flush text: the split is the one [trimStart]
    computes. *)
Lemma span_ws (s : jsstring) :
  exists ws, s = ws ++ trimStart s /\ forallb isWhiteSpace ws = true.
Proof.
  induction s as [|c s (ws & E & F)]; simpl.
  - exists []. auto.
  - destruct (isWhiteSpace c) eqn:W.
    + exists (c :: ws). simpl. rewrite W, F. split; [f_equal; exact E|reflexivity].
    + exists []. auto.
Qed.

Lemma flush_trimStart (s : jsstring) : flush (trimStart s).
Proof.
  unfold flush, stops. destruct (trimStart s) eqn:E; [exact I|].
  exact (trimStart_head _ E).
Qed.

Lemma span_flush (s : jsstring) :
  exists ws text,
    s = ws ++ text /\ forallb isWhiteSpace ws = true /\ flush text.
Proof.
  destruct (span_ws s) as (ws & E & F).
  exists ws, (trimStart s). auto using flush_trimStart.
Qed.

Lemma blanks_head ws : blanks ws -> exists w ws', ws = w :: ws' /\
  isWhiteSpace w = true /\ forallb isWhiteSpace ws' = true.
Proof.
  intros [N F]. destruct ws as [|w ws']; [congruence|].
  simpl in F. apply andb_prop in F as [F1 F2]. eauto.
Qed.

Lemma repeat_mismatch {A} (a b : A) k k' r r' :
  repeat a k ++ r = repeat a k' ++ b :: r' -> k' < k -> b = a.
Proof.
  revert k'. induction k as [|k IH]; intros k' E L; [lia|].
  destruct k' as [|k']; simpl in E.
  - congruence.
  - injection E as E. apply (IH k'); [exact E|lia].
Qed.

(** *** The three line tests *)

Lemma heading_test_elim t : test re_heading t = true -> heading_line t.
Proof.
  unfold test, re_heading. rewrite exec_bol.
  destruct (run _ _ _ _ _) as [m|] eqn:E; [intros _|discriminate].
  apply run_rep_elim in E as (x & rest & -> & F & L & Fi & K).
  rewrite run_one in K. destruct rest as [|w rest]; [discriminate|].
  destruct (isWhiteSpace w) eqn:W; [|discriminate].
  exists (length x), w, rest. simpl in Fi. repeat split; auto.
  unfold hash. rewrite <- forallb_isHash; auto.
Qed.

Lemma heading_test_intro k w rest :
  1 <= k <= 4 -> isWhiteSpace w = true ->
  test re_heading (repeat hash k ++ w :: rest) = true.
Proof.
  intros Hk W. unfold test, re_heading. rewrite exec_bol.
  erewrite run_rep_munch; [reflexivity| | | | |].
  - apply forallb_repeat. reflexivity.
  - rewrite repeat_length. lia.
  - rewrite repeat_length. simpl. lia.
  - left. simpl. apply ws_not_hash, W.
  - rewrite run_one, W. reflexivity.
Qed.

Lemma heading_test_iff t : test re_heading t = true <-> heading_line t.
Proof.
  split; [apply heading_test_elim|].
  intros (k & w & rest & Hk & W & ->). apply heading_test_intro; auto.
Qed.

Lemma bullet_test_iff t : test re_bullet t = true <-> bullet_line t.
Proof.
  unfold test, re_bullet. rewrite exec_bol, run_one. split.
  - destruct t as [|m t]; [discriminate|].
    destruct (isDashOrStar m) eqn:M; [|discriminate].
    rewrite run_one. destruct t as [|w t]; [discriminate|].
    destruct (isWhiteSpace w) eqn:W; [|discriminate].
    intros _. exists m, w, t. auto.
  - intros (m & w & rest & M & W & ->).
    rewrite M, run_one, W. reflexivity.
Qed.

Lemma numbered_test_iff t : test re_numbered t = true <-> numbered_line t.
Proof.
  unfold test, re_numbered. rewrite exec_bol. split.
  - destruct (run _ _ _ _ _) as [m|] eqn:E; [intros _|discriminate].
    apply run_rep_elim in E as (x & rest & -> & F & L & Fi & K).
    rewrite run_one in K. destruct rest as [|p rest]; [discriminate|].
    destruct (isDotOrParen p) eqn:P; [|discriminate].
    rewrite run_one in K. destruct rest as [|w rest]; [discriminate|].
    destruct (isWhiteSpace w) eqn:W; [|discriminate].
    exists x, p, w, rest. repeat split; auto.
    destruct x; simpl in L; [lia|discriminate].
  - intros (ds & p & w & rest & N & F & P & W & ->).
    erewrite run_rep_munch; [reflexivity|exact F| |exact I| |].
    + destruct ds; simpl; [congruence|lia].
    + left. simpl. apply dotparen_not_digit, P.
    + rewrite run_one, P, run_one, W. reflexivity.
Qed.

(** *** What the heading branch extracts *)

Lemma hashes_exec k rest :
  1 <= k <= 4 -> stops isHash rest ->
  exec re_hashes (repeat hash k ++ rest)
  = Some (MRes (repeat hash k) (k + 0)).
Proof.
  intros Hk St. unfold re_hashes. rewrite exec_bol.
  erewrite run_rep_munch; [| | | |left; exact St|reflexivity].
  - unfold kept. rewrite repeat_length. reflexivity.
  - apply forallb_repeat. reflexivity.
  - rewrite repeat_length. lia.
  - rewrite repeat_length. simpl. lia.
Qed.

Lemma run_spaces ws text before g n :
  blanks ws -> flush text ->
  run [Rep false isWhiteSpace 1 None true] before (ws ++ text) g n
  = Some (MRes g (length ws + n)).
Proof.
  intros [N F] Fl.
  erewrite run_rep_munch; [reflexivity|exact F| |exact I| |reflexivity].
  - destruct ws; simpl; [congruence|lia].
  - left. exact Fl.
Qed.

Lemma stops_blanks cls ws text :
  blanks ws -> (forall w, isWhiteSpace w = true -> cls w = false) ->
  stops cls (ws ++ text).
Proof.
  intros B H. destruct (blanks_head B) as (w & ws' & -> & W & _).
  simpl. auto.
Qed.

Lemma heading_marker_strip k ws text :
  1 <= k <= 4 -> blanks ws -> flush text ->
  replace re_heading_marker drop (repeat hash k ++ ws ++ text) = text.
Proof.
  intros Hk B Fl. unfold re_heading_marker.
  erewrite replace_bol_some.
  2:{ apply run_rep_munch.
      - apply forallb_repeat. reflexivity.
      - rewrite repeat_length. lia.
      - rewrite repeat_length. simpl. lia.
      - left. apply stops_blanks; auto using ws_not_hash.
      - apply run_spaces; assumption. }
  simpl. apply skipn_marker.
Qed.

Lemma bullet_marker_strip m ws text :
  isDashOrStar m = true -> blanks ws -> flush text ->
  replace re_bullet_marker drop (m :: ws ++ text) = text.
Proof.
  intros M B Fl. unfold re_bullet_marker.
  erewrite replace_bol_some.
  2:{ rewrite run_one, M. apply run_spaces; assumption. }
  simpl. apply (skipn_marker [m] ws text).
Qed.

Lemma numbered_marker_strip ds p ws text :
  ds <> [] -> forallb isDigit ds = true -> isDotOrParen p = true ->
  blanks ws -> flush text ->
  replace re_numbered_marker drop (ds ++ p :: ws ++ text) = text.
Proof.
  intros N F P B Fl. unfold re_numbered_marker.
  erewrite replace_bol_some.
  2:{ apply run_rep_munch.
      - exact F.
      - destruct ds; simpl; [congruence|lia].
      - exact I.
      - left. simpl. apply dotparen_not_digit, P.
      - rewrite run_one, P. apply run_spaces; assumption. }
  simpl.
  replace (length ws + S (length ds + 0)) with (length ws + (length (ds ++ [p]) + 0))
    by (rewrite length_app; simpl; lia).
  replace (ds ++ p :: ws ++ text) with ((ds ++ [p]) ++ ws ++ text)
    by (rewrite <- app_assoc; reflexivity).
  apply skipn_marker.
Qed.

(** *** Shapes exclude one another *)

Lemma heading_line_starts t : heading_line t -> exists t', t = hash :: t'.
Proof.
  intros (k & w & rest & Hk & _ & ->).
  destruct k as [|k]; [lia|]. simpl. eauto.
Qed.

Lemma bullet_not_heading t : bullet_line t -> ~ heading_line t.
Proof.
  intros (m & w & rest & M & _ & ->) H.
  apply heading_line_starts in H as (t' & E). injection E as -> _.
  discriminate M.
Qed.

Lemma numbered_line_starts t :
  numbered_line t -> exists d t', t = d :: t' /\ isDigit d = true.
Proof.
  intros (ds & p & w & rest & N & F & _ & _ & ->).
  destruct ds as [|d ds]; [congruence|]. simpl in F.
  apply andb_prop in F as [F _]. simpl. eauto.
Qed.

Lemma numbered_not_heading t : numbered_line t -> ~ heading_line t.
Proof.
  intros N H. apply numbered_line_starts in N as (d & t' & -> & D).
  apply heading_line_starts in H as (t'' & E). injection E as -> _.
  discriminate D.
Qed.

Lemma numbered_not_bullet t : numbered_line t -> ~ bullet_line t.
Proof.
  intros N (m & w & rest & M & _ & E).
  apply numbered_line_starts in N as (d & t' & -> & D).
  injection E as -> _. rewrite (digit_not_dashstar _ D) in M. discriminate.
Qed.

Lemma five_hashes_not_heading k rest :
  5 <= k -> ~ heading_line (repeat hash k ++ rest).
Proof.
  intros Hk (k' & w & rest' & Hk' & W & E).
  apply repeat_mismatch in E; [|lia]. subst w. discriminate W.
Qed.

Lemma test_false_iff r t (P : Prop) :
  (test r t = true <-> P) -> (test r t = false <-> ~ P).
Proof.
  intros [A B]. destruct (test r t); split; intros H.
  - discriminate.
  - exfalso. apply H, A. reflexivity.
  - intros p. specialize (B p). discriminate.
  - reflexivity.
Qed.


End PreviewFacts.

(* ================================================================== *)
(** ** Line classification of the full preview *)
(* ================================================================== *)

Module PreviewSpec.
Import Preview Dialect Notions JsFacts RegexFacts PreviewFacts.

Lemma truthy_nonempty (t : jsstring) : t <> [] -> truthy t = true.
Proof. destruct t; [congruence|reflexivity]. Qed.

Lemma render_sound line b :
  dialect (trim line) b -> render_line line = Some b.
Proof.
  unfold render_line. cbv zeta. generalize (trim line). intros t D.
  destruct D as [|k ws text Hk B Fl|m ws text M B Fl
                 |ds p ws text N F P B Fl|t N NH NB NN].
  - reflexivity.
  - destruct (blanks_head B) as (w & ws' & E & W & _).
    assert (T : truthy (repeat hash k ++ ws ++ text) = true).
    { destruct k; [lia|reflexivity]. }
    rewrite T. cbn [negb].
    assert (H : test re_heading (repeat hash k ++ ws ++ text) = true).
    { rewrite E. apply heading_test_intro; auto. }
    rewrite H, hashes_exec; auto using stops_blanks, ws_not_hash.
    cbn [group1]. rewrite repeat_length, heading_marker_strip; auto.
  - cbn [truthy negb].
    assert (BL : bullet_line (m :: ws ++ text)).
    { destruct (blanks_head B) as (w & ws' & -> & W & _).
      exists m, w, (ws' ++ text). auto. }
    pose proof (proj2 (test_false_iff _ _ (heading_test_iff _))
                      (bullet_not_heading BL)) as H1.
    rewrite H1, (proj2 (bullet_test_iff _) BL), bullet_marker_strip; auto.
  - assert (NL : numbered_line (ds ++ p :: ws ++ text)).
    { destruct (blanks_head B) as (w & ws' & -> & W & _).
      exists ds, p, w, (ws' ++ text). auto. }
    rewrite truthy_nonempty by (destruct ds; simpl; congruence).
    cbn [negb].
    rewrite (proj2 (test_false_iff _ _ (heading_test_iff _))
                   (numbered_not_heading NL)).
    rewrite (proj2 (test_false_iff _ _ (bullet_test_iff _))
                   (numbered_not_bullet NL)).
    rewrite (proj2 (numbered_test_iff _) NL), numbered_marker_strip; auto.
  - rewrite truthy_nonempty by assumption. cbn [negb].
    rewrite (proj2 (test_false_iff _ _ (heading_test_iff _)) NH).
    rewrite (proj2 (test_false_iff _ _ (bullet_test_iff _)) NB).
    rewrite (proj2 (test_false_iff _ _ (numbered_test_iff _)) NN).
    reflexivity.
Qed.

(** Every trimmed line has a place in the dialect. *)
Lemma dialect_total t : exists b, dialect t b.
Proof.
  destruct t as [|c t]; [exists Blank; constructor|].
  destruct (test re_heading (c :: t)) eqn:H.
  { apply heading_test_iff in H as (k & w & rest & Hk & W & ->).
    destruct (span_flush rest) as (ws & text & -> & F & Fl).
    exists (Heading k text).
    apply D_heading with (ws := w :: ws); auto.
    split; [discriminate|]. simpl. rewrite W. exact F. }
  destruct (test re_bullet (c :: t)) eqn:B.
  { apply bullet_test_iff in B as (m & w & rest & M & W & ->).
    destruct (span_flush rest) as (ws & text & -> & F & Fl).
    exists (Bullet text).
    apply D_bullet with (ws := w :: ws); auto.
    split; [discriminate|]. simpl. rewrite W. exact F. }
  destruct (test re_numbered (c :: t)) eqn:N.
  { apply numbered_test_iff in N as (ds & p & w & rest & Nn & D & P & W & ->).
    destruct (span_flush rest) as (ws & text & -> & F & Fl).
    exists (Numbered text).
    apply D_numbered with (ws := w :: ws); auto.
    split; [discriminate|]. simpl. rewrite W. exact F. }
  exists (Paragraph (inline (c :: t))). constructor.
  - discriminate.
  - apply (test_false_iff _ _ (heading_test_iff _)), H.
  - apply (test_false_iff _ _ (bullet_test_iff _)), B.
  - apply (test_false_iff _ _ (numbered_test_iff _)), N.
Qed.

Lemma render_complete line b :
  render_line line = Some b -> dialect (trim line) b.
Proof.
  intros H. destruct (dialect_total (trim line)) as (b' & D).
  rewrite (render_sound _ D) in H. injection H as <-. exact D.
Qed.

Lemma dialect_heading t l x : dialect t (Heading l x) -> heading_line t.
Proof.
  intros D. inversion D as [|k ws text Hk B Fl| | |]; subst.
  destruct (blanks_head B) as (w & ws' & -> & W & _).
  exists l, w, (ws' ++ x). auto.
Qed.

Lemma dialect_blank t : dialect t Blank -> t = [].
Proof. intros D. inversion D. reflexivity. Qed.

(** C1.  For every line of chapter content the preview renderer returns
  exactly one block, and that block is the one the dialect prescribes for
  the trimmed line: 1 to 4 '#' followed by whitespace is a heading of that
  level with the remainder as text, '-' or '*' followed by whitespace is a
  bullet item, digits followed by '.' or ')' and whitespace is a numbered
  item (markers stripped), a whitespace-only line is a blank, every other
  line is a paragraph; a line starting with 5 or more '#' is never a
  heading. *)
Theorem preview_line_classification (line : jsstring) :
(exists b, render_line line = Some b) /\
(forall b, render_line line = Some b <-> dialect (trim line) b) /\
(render_line line = Some Blank <-> forallb isWhiteSpace line = true) /\
(forall k rest l x,
    5 <= k -> trim line = repeat hash k ++ rest ->
    render_line line <> Some (Heading l x)).
Proof.
assert (Iff : forall b, render_line line = Some b <-> dialect (trim line) b).
{ intros b. split; [apply render_complete|apply render_sound]. }
repeat split.
- destruct (dialect_total (trim line)) as (b & D). exists b. apply Iff, D.
- apply Iff.
- apply Iff.
- intros H. apply Iff, dialect_blank in H. apply trim_nil_iff, H.
- intros H. apply Iff. apply trim_nil_iff in H. rewrite H. constructor.
- intros k rest l x Hk E H. apply Iff, dialect_heading in H.
  rewrite E in H. exact (five_hashes_not_heading _ Hk H).
Qed.

End PreviewSpec.

(* ================================================================== *)
(** ** Global replacement over a line of spans *)
(* ================================================================== *)

Module InlineFacts.
Import Preview Dialect Notions JsFacts RegexFacts.

Lemma literal_cons c t : literal (c :: t) <-> isStar c = false /\ literal t.
Proof.
  unfold literal. simpl. rewrite andb_true_iff, negb_true_iff. tauto.
Qed.

Lemma literal_app t u : literal (t ++ u) <-> literal t /\ literal u.
Proof. unfold literal. rewrite forallb_app, andb_true_iff. tauto. Qed.

Lemma literal_rev t : literal t -> literal (rev t).
Proof. unfold literal. rewrite forallb_rev. auto. Qed.

Lemma literal_stops t rest :
  literal t -> t <> [] -> stops isStar (t ++ rest).
Proof.
  destruct t as [|c t]; [congruence|]. intros L _.
  apply literal_cons in L as [L _]. exact L.
Qed.

Lemma literal_stops_rev t before :
  literal t -> stops isStar before -> stops isStar (rev t ++ before).
Proof.
  intros L B. apply literal_rev in L.
  destruct (rev t) as [|c r]; [exact B|].
  apply literal_cons in L as [L _]. exact L.
Qed.

Lemma literal_stops_rev_ne t before :
  literal t -> t <> [] -> stops isStar (rev t ++ before).
Proof.
  intros L N. apply literal_stops; [apply literal_rev, L|].
  intros E. apply N. rewrite <- (rev_involutive t), E. reflexivity.
Qed.

Lemma stars_all j : forallb isStar (stars j) = true.
Proof. apply forallb_repeat. reflexivity. Qed.

Lemma stars_length j : length (stars j) = j.
Proof. apply repeat_length. Qed.

Lemma source_stars sp :
  source sp = stars (level sp) ++ body sp ++ stars (level sp).
Proof. destruct sp; cbn; rewrite ?app_nil_r; reflexivity. Qed.

(** *** Assertions and blocked repetitions *)

Lemma run_rep_blocked cap cls lo hi greedy r before after g n :
  1 <= lo -> stops cls after ->
  run (Rep cap cls lo hi greedy :: r) before after g n = None.
Proof.
  intros L St. apply run_rep_none. intros x rest E F Lo _. exfalso.
  pose proof (run_bound cls [] after x rest E F St). simpl in *. lia.
Qed.

Lemma run_notbehind_pass cls r before after g n :
  stops cls before ->
  run (NotBehind cls :: r) before after g n = run r before after g n.
Proof.
  destruct before as [|b before]; cbn [run stops]; [reflexivity|].
  intros ->. reflexivity.
Qed.

Lemma run_notahead_pass cls r before after g n :
  stops cls after ->
  run (NotAhead cls :: r) before after g n = run r before after g n.
Proof.
  destruct after as [|a after]; cbn [run stops]; [reflexivity|].
  intros ->. reflexivity.
Qed.

Lemma run_notbehind_elim cls r before after g n m :
  run (NotBehind cls :: r) before after g n = Some m ->
  stops cls before /\ run r before after g n = Some m.
Proof.
  destruct before as [|b before]; cbn [run stops]; [auto|].
  destruct (cls b); [discriminate|auto].
Qed.

Lemma run_notahead_elim cls r before after g n m :
  run (NotAhead cls :: r) before after g n = Some m ->
  stops cls after /\ run r before after g n = Some m.
Proof.
  destruct after as [|a after]; cbn [run stops]; [auto|].
  destruct (cls a); [discriminate|auto].
Qed.

Lemma run_one_elim cls r before after g n m :
  run (One cls :: r) before after g n = Some m ->
  exists c a, after = c :: a /\ cls c = true /\
              run r (c :: before) a g (S n) = Some m.
Proof.
  rewrite run_one. destruct after as [|c a]; [discriminate|].
  destruct (cls c) eqn:E; [|discriminate]. eauto.
Qed.

(** *** One step of a global replacement *)

Section Steps.
Variables (R : regex) (f : jsstring -> jsstring).

Lemma replaceAll_end before :
  matchAt R before [] = None -> replaceAll_from R f 0 before [] = [].
Proof. intros H. cbn [replaceAll_from]. rewrite H. reflexivity. Qed.

Lemma replaceAll_copy before c s :
  matchAt R before (c :: s) = None ->
  replaceAll_from R f 0 before (c :: s)
  = c :: replaceAll_from R f 0 (c :: before) s.
Proof. intros H. cbn [replaceAll_from]. rewrite H. reflexivity. Qed.

Lemma replaceAll_hit before c s m k :
  matchAt R before (c :: s) = Some m -> taken m = S k ->
  replaceAll_from R f 0 before (c :: s)
  = f (group1 m) ++ replaceAll_from R f k (c :: before) s.
Proof. intros H T. cbn [replaceAll_from]. rewrite H, T. reflexivity. Qed.

Lemma replaceAll_skip u : forall before s,
  replaceAll_from R f (length u) before (u ++ s)
  = replaceAll_from R f 0 (rev u ++ before) s.
Proof.
  induction u as [|c u IH]; intros before s; [reflexivity|].
  cbn [length app replaceAll_from rev]. rewrite IH, <- app_assoc. reflexivity.
Qed.

End Steps.

(** *** A pass that rewrites the runs of some levels *)

Section Pass.
Variables (R : regex) (f : jsstring -> jsstring).
(** Runs of a level below [d] are left alone; runs of a level in [hit]
    are rewritten. *)
Variables (d : nat) (hit : nat -> bool).

Hypothesis hit_plain : hit 0 = false.
Hypothesis miss_stop :
  forall before after, stops isStar after -> matchAt R before after = None.
Hypothesis miss_low :
  forall before j rest,
    1 <= j < d -> stops isStar rest ->
    matchAt R before (stars j ++ rest) = None.
Hypothesis match_hit :
  forall before j x rest,
    hit j = true -> stops isStar before -> emphasised x ->
    stops isStar rest ->
    matchAt R before (stars j ++ x ++ stars j ++ rest)
    = Some (MRes x (j + length x + j)).

Lemma settle_plain t : settle f hit (Plain t) = Plain t.
Proof. unfold settle. cbn [level]. rewrite hit_plain. reflexivity. Qed.

Lemma literal_copy t : forall before s,
  literal t ->
  replaceAll_from R f 0 before (t ++ s)
  = t ++ replaceAll_from R f 0 (rev t ++ before) s.
Proof.
  induction t as [|c t IH]; intros before s L; [reflexivity|].
  apply literal_cons in L as [Lc L].
  cbn [app rev]. rewrite replaceAll_copy by (apply miss_stop; exact Lc).
  rewrite IH, <- app_assoc by exact L. reflexivity.
Qed.

Lemma stars_copy j : forall before rest,
  j < d -> stops isStar rest ->
  replaceAll_from R f 0 before (stars j ++ rest)
  = stars j ++ replaceAll_from R f 0 (rev (stars j) ++ before) rest.
Proof.
  induction j as [|j IH]; intros before rest Hj St; [reflexivity|].
  assert (M : matchAt R before (stars (S j) ++ rest) = None)
    by (apply miss_low; [lia|exact St]).
  cbn [stars repeat app rev] in *. rewrite replaceAll_copy by exact M.
  fold (stars j). rewrite IH, <- app_assoc by (auto; lia). reflexivity.
Qed.

Lemma span_step e before rest :
  emphasis e -> in_reach d hit e -> stops isStar before -> stops isStar rest ->
  replaceAll_from R f 0 before (source e ++ rest)
  = source (settle f hit e) ++ replaceAll_from R f 0 (rev (source e) ++ before) rest.
Proof.
  intros [Lv Em] Re B St. unfold settle.
  destruct Em as (N & L & D). pose proof (conj N (conj L D)) as Em.
  destruct (hit (level e)) eqn:H.
  - rewrite source_stars, <- !app_assoc.
    assert (M : matchAt R before
                  (stars (level e) ++ body e ++ stars (level e) ++ rest)
                = Some (MRes (body e) (level e + length (body e) + level e)))
      by (apply match_hit; assumption).
    destruct (level e) as [|j]; [lia|].
    cbn [stars repeat app] in *. fold (stars j) in *.
    rewrite replaceAll_hit with (1 := M) (k := j + length (body e) + S j)
      by (cbn; lia).
    cbn [group1 source].
    replace (j + length (body e) + S j)
      with (length (stars j ++ body e ++ star :: stars j))
      by (rewrite !length_app; cbn [length]; rewrite !stars_length; lia).
    replace (stars j ++ body e ++ star :: stars j ++ rest)
      with ((stars j ++ body e ++ star :: stars j) ++ rest)
      by (rewrite <- !app_assoc; reflexivity).
    rewrite replaceAll_skip. cbn [rev]. rewrite <- !app_assoc. reflexivity.
  - destruct Re as [Re|Re]; [|congruence].
    rewrite source_stars, <- !app_assoc.
    rewrite stars_copy by (auto using literal_stops).
    rewrite literal_copy by exact L.
    rewrite stars_copy by auto.
    rewrite !rev_app_distr, <- !app_assoc. reflexivity.
Qed.

Lemma pass_spans l :
  well_spaced l -> Forall (in_reach d hit) l ->
  forall before, stops isStar before ->
    replaceAll_from R f 0 before (written l) = written (map (settle f hit) l).
Proof.
  unfold written.
  induction 1 as [|t l L W IH|e E|e t l E L N W IH]; intros Re before B.
  - apply replaceAll_end, miss_stop. exact I.
  - inversion Re as [|? ? _ Re']; subst.
    cbn [map concat source]. rewrite literal_copy by exact L.
    rewrite IH by auto using literal_stops_rev.
    rewrite settle_plain. reflexivity.
  - inversion Re as [|? ? Re1 _]; subst.
    cbn [map concat]. rewrite span_step by (auto; exact I).
    rewrite replaceAll_end by (apply miss_stop; exact I). reflexivity.
  - inversion Re as [|? ? Re1 Re2]; subst.
    inversion Re2 as [|? ? _ Re3]; subst.
    cbn [map concat source].
    rewrite span_step by auto using literal_stops.
    rewrite literal_copy by exact L.
    rewrite IH by auto using literal_stops_rev_ne.
    rewrite settle_plain. reflexivity.
Qed.

End Pass.

(** *** The patterns of the source *)

Lemma between_iff lo hi j : between lo hi j = true <-> lo <= j <= hi.
Proof.
  unfold between. rewrite andb_true_iff, !Nat.leb_le. tauto.
Qed.

Lemma stars_miss_stop lo hi before after :
  1 <= lo -> stops isStar after ->
  matchAt (re_stars lo hi) before after = None.
Proof. intros. apply run_rep_blocked; assumption. Qed.

Lemma stars_miss_low lo hi before j rest :
  1 <= j < lo -> stops isStar rest ->
  matchAt (re_stars lo hi) before (stars j ++ rest) = None.
Proof.
  intros Hj St. apply run_rep_none. intros x rest' E F L _. exfalso.
  pose proof (run_bound isStar (stars j) rest x rest' E F St) as B.
  rewrite stars_length in B. lia.
Qed.

Lemma emphasised_inside x x' c y :
  emphasised x -> x = x' ++ c :: y -> isStar c = false.
Proof.
  intros (_ & L & _) ->. apply literal_app in L as [_ L].
  apply literal_cons in L as [L _]. exact L.
Qed.

Lemma stars_match lo hi before j x rest :
  1 <= lo -> lo <= j <= hi -> emphasised x -> stops isStar rest ->
  matchAt (re_stars lo hi) before (stars j ++ x ++ stars j ++ rest)
  = Some (MRes x (j + length x + j)).
Proof.
  intros Hlo Hj Em St. pose proof Em as (N & L & D).
  unfold matchAt, re_stars. apply run_rep_munch.
  - apply stars_all.
  - rewrite stars_length. lia.
  - rewrite stars_length. simpl. lia.
  - left. apply literal_stops; assumption.
  - apply run_rep_lazy.
    + exact D.
    + destruct x; simpl; [congruence|lia].
    + exact I.
    + apply run_rep_munch.
      * apply stars_all.
      * rewrite stars_length. lia.
      * rewrite stars_length. simpl. lia.
      * left. exact St.
      * cbn [run]. unfold kept. rewrite !stars_length.
        do 2 f_equal. lia.
    + intros x' rest' E Lt Lo.
      destruct (shorter_prefix _ _ _ _ E Lt) as (c & y & Ex & ->).
      apply run_rep_blocked; [lia|].
      eapply emphasised_inside; [exact Em|exact Ex].
Qed.

Lemma run_one_blocked cls r before after g n :
  stops cls after -> run (One cls :: r) before after g n = None.
Proof.
  rewrite run_one. destruct after as [|c a]; [reflexivity|].
  simpl. intros ->. reflexivity.
Qed.

Lemma run_notbehind_blocked cls r before after g n :
  run r before after g n = None ->
  run (NotBehind cls :: r) before after g n = None.
Proof.
  intros H. destruct before as [|b before]; cbn [run]; [exact H|].
  destruct (cls b); [reflexivity|exact H].
Qed.

Lemma em_miss_stop before after :
  stops isStar after -> matchAt re_em before after = None.
Proof.
  intros St. apply run_notbehind_blocked, run_one_blocked, St.
Qed.

Lemma em_match before x rest :
  stops isStar before -> emphasised x -> stops isStar rest ->
  matchAt re_em before (stars 1 ++ x ++ stars 1 ++ rest)
  = Some (MRes x (1 + length x + 1)).
Proof.
  intros B Em St. pose proof Em as (N & L & D).
  unfold matchAt, re_em. cbn [stars repeat app].
  rewrite run_notbehind_pass by exact B.
  rewrite run_one. change (isStar star) with true. cbn iota.
  rewrite run_notahead_pass by (apply literal_stops; assumption).
  apply run_rep_lazy.
  - exact D.
  - destruct x; simpl; [congruence|lia].
  - exact I.
  - rewrite run_notbehind_pass by (apply literal_stops_rev_ne; assumption).
    rewrite run_one. change (isStar star) with true. cbn iota.
    rewrite run_notahead_pass by exact St.
    cbn [run]. unfold kept. reflexivity.
  - intros x' rest' E Lt Lo.
    destruct (shorter_prefix _ _ _ _ E Lt) as (c & y & Ex & ->).
    apply run_notbehind_blocked, run_one_blocked.
    eapply emphasised_inside; [exact Em|exact Ex].
Qed.

Lemma clean_em_miss_stop before after :
  stops isStar after -> matchAt Card.re_clean_em before after = None.
Proof. intros St. apply run_one_blocked, St. Qed.

Lemma clean_em_match before x rest :
  emphasised x ->
  matchAt Card.re_clean_em before (stars 1 ++ x ++ stars 1 ++ rest)
  = Some (MRes x (1 + length x + 1)).
Proof.
  intros Em. pose proof Em as (N & L & D).
  unfold matchAt, Card.re_clean_em. cbn [stars repeat app].
  rewrite run_one. change (isStar star) with true. cbn iota.
  apply run_rep_lazy.
  - exact D.
  - destruct x; simpl; [congruence|lia].
  - exact I.
  - rewrite run_one. change (isStar star) with true. cbn iota.
    cbn [run]. unfold kept. reflexivity.
  - intros x' rest' E Lt Lo.
    destruct (shorter_prefix _ _ _ _ E Lt) as (c & y & Ex & ->).
    apply run_one_blocked. eapply emphasised_inside; [exact Em|exact Ex].
Qed.

(** *** What a pass leaves behind *)

Section Settle.
Variables (f : jsstring -> jsstring) (hit : nat -> bool).
Hypothesis hit_plain : hit 0 = false.
Hypothesis f_literal : forall x, literal x -> literal (f x).

Lemma settle_emphasis e :
  emphasis e ->
  (settle f hit e = e /\ hit (level e) = false) \/
  (settle f hit e = Plain (f (body e)) /\ literal (f (body e))).
Proof.
  intros (_ & _ & L & _). unfold settle.
  destruct (hit (level e)); auto.
Qed.

Lemma settle_well_spaced l :
  well_spaced l -> well_spaced (map (settle f hit) l).
Proof.
  induction 1 as [|t l L W IH|e E|e t l E L N W IH]; cbn [map].
  - constructor.
  - rewrite settle_plain by exact hit_plain. constructor; assumption.
  - destruct (settle_emphasis E) as [[-> _]|[-> Lf]].
    + constructor. exact E.
    + repeat constructor. exact Lf.
  - rewrite settle_plain by exact hit_plain.
    destruct (settle_emphasis E) as [[-> _]|[-> Lf]].
    + constructor; assumption.
    + repeat constructor; assumption.
Qed.

Lemma settle_upto n m l :
  (forall j, n < j <= m -> hit j = true) -> upto m l ->
  upto n (map (settle f hit) l).
Proof.
  intros H U. unfold upto in *. rewrite Forall_map.
  eapply Forall_impl; [|exact U]. cbn beta. intros sp Le. unfold settle.
  destruct (hit (level sp)) eqn:E; cbn [level]; [lia|].
  destruct (Nat.le_gt_cases (level sp) n) as [|G]; [assumption|].
  rewrite H in E by lia. discriminate.
Qed.

End Settle.

Lemma reach_upto d hit n l :
  (forall j, d <= j <= n -> hit j = true) -> upto n l ->
  Forall (in_reach d hit) l.
Proof.
  intros H U. eapply Forall_impl; [|exact U]. cbn beta. intros sp Le.
  unfold in_reach. destruct (Nat.lt_ge_cases (level sp) d); auto.
Qed.

Lemma upto_3 l : upto 3 l.
Proof.
  apply Forall_forall. intros sp _. destruct sp; cbn; lia.
Qed.

Lemma marked_settle f hit l :
  (forall sp, hit (level sp) = true -> f (body sp) = markup sp) ->
  marked (map (settle f hit) l) = marked l.
Proof.
  intros H. unfold marked. induction l as [|sp l IH]; [reflexivity|].
  cbn [map concat]. rewrite IH. f_equal. unfold settle.
  destruct (hit (level sp)) eqn:E; [|reflexivity]. cbn. auto.
Qed.

Lemma shown_settle hit l :
  shown (map (settle Card.group hit) l) = shown l.
Proof.
  unfold shown. induction l as [|sp l IH]; [reflexivity|].
  cbn [map concat]. rewrite IH. f_equal. unfold settle.
  destruct (hit (level sp)); reflexivity.
Qed.

Lemma written_upto_0 l :
  upto 0 l -> written l = marked l /\ written l = shown l.
Proof.
  unfold written, marked, shown.
  induction 1 as [|sp l Le U [IH1 IH2]]; [auto|].
  cbn [map concat]. rewrite <- IH1, <- IH2.
  destruct sp; cbn in Le; try lia. auto.
Qed.

(** *** The three passes of the full preview *)

Lemma literal_tagged (a b x : jsstring) :
  literal a -> literal b -> literal x -> literal (a ++ x ++ b).
Proof. intros. rewrite !literal_app. auto. Qed.

Lemma strong_em_literal x : literal x -> literal (strong_em x).
Proof. apply literal_tagged; reflexivity. Qed.

Lemma strong_literal x : literal x -> literal (strong x).
Proof. apply literal_tagged; reflexivity. Qed.

Lemma em_literal x : literal x -> literal (em x).
Proof. apply literal_tagged; reflexivity. Qed.

Lemma pass_stars lo hi f l before :
  1 <= lo -> well_spaced l -> Forall (in_reach lo (between lo hi)) l ->
  stops isStar before ->
  replaceAll_from (re_stars lo hi) f 0 before (written l)
  = written (map (settle f (between lo hi)) l).
Proof.
  intros Hlo W Re B. apply pass_spans with (d := lo); auto.
  - unfold between. destruct lo; [lia|reflexivity].
  - intros. apply stars_miss_stop; assumption.
  - intros. apply stars_miss_low; assumption.
  - intros b j x rest H _ Em St. apply between_iff in H.
    apply stars_match; assumption.
Qed.

Lemma pass_em l before :
  well_spaced l -> upto 1 l -> stops isStar before ->
  replaceAll_from re_em em 0 before (written l)
  = written (map (settle em (between 1 1)) l).
Proof.
  intros W U B. apply pass_spans with (d := 1); auto.
  - intros. apply em_miss_stop; assumption.
  - intros. lia.
  - intros b j x rest H Bb Em St. apply between_iff in H.
    assert (j = 1) as -> by lia. apply em_match; assumption.
  - apply reach_upto with (n := 1); [|exact U].
    intros j Hj. apply between_iff. lia.
Qed.

Lemma pass_clean_em l before :
  well_spaced l -> upto 1 l -> stops isStar before ->
  replaceAll_from Card.re_clean_em Card.group 0 before (written l)
  = written (map (settle Card.group (between 1 1)) l).
Proof.
  intros W U B. apply pass_spans with (d := 1); auto.
  - intros. apply clean_em_miss_stop; assumption.
  - intros. lia.
  - intros b j x rest H Bb Em St. apply between_iff in H.
    assert (j = 1) as -> by lia. apply clean_em_match; assumption.
  - apply reach_upto with (n := 1); [|exact U].
    intros j Hj. apply between_iff. lia.
Qed.

(** On a well spaced line the three replacements produce the markup of
    every span. *)
Lemma inline_spans l : well_spaced l -> inline (written l) = marked l.
Proof.
  intros W. unfold inline, replaceAll.
  change re_strong_em with (re_stars 3 3).
  change re_strong with (re_stars 2 2).
  set (l3 := map (settle strong_em (between 3 3)) l).
  set (l2 := map (settle strong (between 2 2)) l3).
  set (l1 := map (settle em (between 1 1)) l2).
  assert (W3 : well_spaced l3)
    by (apply settle_well_spaced; auto using strong_em_literal).
  assert (W2 : well_spaced l2)
    by (apply settle_well_spaced; auto using strong_literal).
  assert (U3 : upto 2 l3).
  { apply settle_upto with (m := 3); [|apply upto_3].
    intros j Hj. apply between_iff. lia. }
  assert (U2 : upto 1 l2).
  { apply settle_upto with (m := 2); [|exact U3].
    intros j Hj. apply between_iff. lia. }
  assert (U1 : upto 0 l1).
  { apply settle_upto with (m := 1); [|exact U2].
    intros j Hj. apply between_iff. lia. }
  rewrite pass_stars; [|lia|exact W|..|exact I].
  2:{ apply reach_upto with (n := 3); [|apply upto_3].
      intros j Hj. apply between_iff. lia. }
  fold l3. rewrite pass_stars; [|lia|exact W3|..|exact I].
  2:{ apply reach_upto with (n := 2); [|exact U3].
      intros j Hj. apply between_iff. lia. }
  fold l2. rewrite pass_em; [|exact W2|exact U2|exact I].
  fold l1. rewrite (proj1 (written_upto_0 U1)).
  unfold l1, l2, l3. rewrite !marked_settle; [reflexivity|..];
    intros sp H; apply between_iff in H; destruct sp; cbn in H; try lia;
    reflexivity.
Qed.

(** On a well spaced line the card's two replacements leave the
    characters a reader sees. *)
Lemma clean_spans l : well_spaced l -> Card.clean (written l) = shown l.
Proof.
  intros W. unfold Card.clean, replaceAll.
  change Card.re_clean_strong with (re_stars 2 3).
  set (l2 := map (settle Card.group (between 2 3)) l).
  set (l1 := map (settle Card.group (between 1 1)) l2).
  assert (W2 : well_spaced l2) by (apply settle_well_spaced; auto).
  assert (U2 : upto 1 l2).
  { apply settle_upto with (m := 3); [|apply upto_3].
    intros j Hj. apply between_iff. lia. }
  assert (U1 : upto 0 l1).
  { apply settle_upto with (m := 1); [|exact U2].
    intros j Hj. apply between_iff. lia. }
  rewrite pass_stars; [|lia|exact W|..|exact I].
  2:{ apply reach_upto with (n := 3); [|apply upto_3].
      intros j Hj. apply between_iff. lia. }
  fold l2. rewrite pass_clean_em; [|exact W2|exact U2|exact I].
  fold l1. rewrite (proj2 (written_upto_0 U1)).
  unfold l1, l2. rewrite !shown_settle. reflexivity.
Qed.

(** *** The lookarounds of the single-asterisk pattern *)

Lemma stops_app_l cls (x y : jsstring) :
  x <> [] -> stops cls (x ++ y) -> stops cls x.
Proof. destruct x; [congruence|auto]. Qed.

Lemma em_match_elim before after m :
  matchAt re_em before after = Some m ->
  exists x rest,
    after = star :: x ++ star :: rest /\ group1 m = x /\ x <> [] /\
    stops isStar before /\ stops isStar x /\
    stops isStar (rev x) /\ stops isStar rest.
Proof.
  unfold matchAt, re_em. intros H.
  apply run_notbehind_elim in H as [B H].
  apply run_one_elim in H as (c & a & -> & C & H).
  apply isStar_eq in C. subst c.
  apply run_notahead_elim in H as [A H].
  apply run_rep_elim in H as (x & rest1 & -> & F & L & _ & H).
  assert (N : x <> []) by (destruct x; simpl in L; [lia|discriminate]).
  apply run_notbehind_elim in H as [B' H].
  apply run_one_elim in H as (c & rest & -> & C & H).
  apply isStar_eq in C. subst c.
  apply run_notahead_elim in H as [A' H].
  cbn [run kept] in H. injection H as <-.
  exists x, rest. cbn [group1]. repeat split; auto.
  - apply stops_app_l with (y := code "*" :: rest); assumption.
  - apply stops_app_l with (y := code "*" :: before); [|exact B'].
    intros E. apply N. rewrite <- (rev_involutive x), E. reflexivity.
Qed.

End InlineFacts.

(* ================================================================== *)
(** ** Inline emphasis of the full preview *)
(* ================================================================== *)

Module InlineSpec.
Import Preview Dialect Notions JsFacts RegexFacts PreviewFacts PreviewSpec InlineFacts.

Lemma paragraph_html line html :
  render_line line = Some (Paragraph html) -> html = inline (trim line).
Proof.
  intros H. apply render_complete in H. inversion H. reflexivity.
Qed.

(** C2, as amended.  On a paragraph line made of plain text without
    asterisks and of runs '***x***', '**x**', '*x*' (x not empty, without
    asterisk or line terminator), each run followed by the end of the line
    or by a character that is not an asterisk, inline parsing turns every
    run into bold+italic, bold, italic and copies every other character.
    On any line, both asterisks of a single-asterisk match have no asterisk
    next to them. *)
Theorem inline_emphasis :
  (forall line html l,
      render_line line = Some (Paragraph html) ->
      trim line = written l -> well_spaced l ->
      html = marked l) /\
  (forall l, well_spaced l -> inline (written l) = marked l) /\
  (forall before after m,
      matchAt re_em before after = Some m ->
      exists x rest,
        after = star :: x ++ star :: rest /\ group1 m = x /\ x <> [] /\
        stops isStar before /\ stops isStar x /\
        stops isStar (rev x) /\ stops isStar rest).
Proof.
  repeat split.
  - intros line html l H E W. rewrite (paragraph_html _ H), E.
    apply inline_spans, W.
  - apply inline_spans.
  - apply em_match_elim.
Qed.

Lemma sample_line_well_spaced : well_spaced sample_line.
Proof.
  unfold sample_line.
  repeat first
    [ apply WS_nil
    | apply WS_plain; [reflexivity|]
    | apply WS_run;
      [split; [cbn; lia|split; [discriminate|split; reflexivity]]
      |reflexivity|discriminate|] ].
Qed.

Lemma inline_emphasis_witness :
  written sample_line = lit "A **bold** and *it*, ***both***." /\
  inline (written sample_line)
  = lit "A <strong>bold</strong> and <em>it</em>, <strong><em>both</em></strong>.".
Proof.
  split; [reflexivity|].
  rewrite (proj1 (proj2 inline_emphasis) sample_line sample_line_well_spaced).
  reflexivity.
Defined.

(** C2 as it was stated fails: an italic run directly followed by a bold
    run, a bold run whose content has a line terminator, and a bold run
    whose content has an asterisk are not rewritten to italic and bold. *)
Lemma inline_emphasis_counterexample :
  (inline (written [Em (lit "a"); Strong (lit "b")])
   = lit "<em>a<strong></em>b</strong>" /\
   inline (written [Em (lit "a"); Strong (lit "b")])
   <> marked [Em (lit "a"); Strong (lit "b")]) /\
  (inline (written [Strong [97; 13; 98]%N]) = written [Strong [97; 13; 98]%N] /\
   inline (written [Strong [97; 13; 98]%N]) <> marked [Strong [97; 13; 98]%N]) /\
  (inline (written [Strong (lit "a*b"); Plain (lit "c*")])
   = lit "<strong>a<em>b</strong>c</em>" /\
   inline (written [Strong (lit "a*b"); Plain (lit "c*")])
   <> marked [Strong (lit "a*b"); Plain (lit "c*")]).
Proof.
  repeat split; try (vm_compute; reflexivity); vm_compute; discriminate.
Qed.

End InlineSpec.

(* ================================================================== *)
(** ** The card against the full preview *)
(* ================================================================== *)

Module CardSpec.
Import Preview Card Dialect Notions JsFacts RegexFacts PreviewFacts PreviewSpec InlineFacts.

Lemma card_line_view line b :
  render_line line = Some b -> card_line line = card_view (trim line) b.
Proof.
  unfold render_line, card_line. cbv zeta.
  destruct (negb (truthy (trim line))).
  { intros H. injection H as <-. reflexivity. }
  destruct (test re_heading (trim line)).
  { destruct (exec re_hashes (trim line)); [|discriminate].
    intros H. injection H as <-. reflexivity. }
  destruct (test re_bullet (trim line)).
  { intros H. injection H as <-. reflexivity. }
  destruct (test re_numbered (trim line));
    intros H; injection H as <-; reflexivity.
Qed.

(** C3, as amended.  The card and the full preview run the same tests on
    the trimmed line: the card's block is the full preview's block with
    the heading level forgotten and with numbered items turned into
    paragraphs of the cleaned line; the card shows the first 30 lines
    only; on a paragraph line whose emphasis runs are well spaced the full
    preview's paragraph marks up exactly the runs whose delimiters the
    card's paragraph removes. *)
Theorem card_follows_preview :
  (forall line b,
      render_line line = Some b -> card_line line = card_view (trim line) b) /\
  (forall content,
      card (Some content) = Some (firstn 30 (map card_line (lines content)))) /\
  (forall line html l,
      render_line line = Some (Paragraph html) ->
      trim line = written l -> well_spaced l ->
      html = marked l /\ card_line line = CParagraph (shown l)).
Proof.
  split; [|split].
  - apply card_line_view.
  - intros content. cbn [card option_map]. rewrite firstn_map. reflexivity.
  - intros line html l R T W. split.
    + rewrite (InlineSpec.paragraph_html _ R), T. apply inline_spans, W.
    + erewrite card_line_view by exact R. cbn [card_view]. rewrite T.
      f_equal. apply clean_spans, W.
Qed.

Lemma card_follows_preview_witness :
  card_line (lit "## Title") = CHeading (lit "Title") /\
  card_line (lit "  A **bold** and *it*, ***both***.")
  = CParagraph (lit "A bold and it, both.").
Proof.
  split.
  - apply (proj1 card_follows_preview (lit "## Title") (Heading 2 (lit "Title"))).
    vm_compute. reflexivity.
  - apply (proj2 (proj2 (proj2 card_follows_preview)
                        (lit "  A **bold** and *it*, ***both***.")
                        (marked sample_line) sample_line
                        eq_refl eq_refl
                        InlineSpec.sample_line_well_spaced)).
Defined.

(** C3 as it was stated fails: a numbered item of the full preview is a
    paragraph of the card, which also removes the delimiters that the full
    preview leaves in a numbered item, and on a paragraph line that is not
    well spaced the two take different emphasis runs. *)
Lemma card_follows_preview_counterexample :
  (option_map preview_kind (render_line (lit "1. First step")) = Some KNumbered /\
   card_kind (card_line (lit "1. First step")) = KParagraph) /\
  ~ (forall line,
        option_map preview_kind (render_line line)
        = Some (card_kind (card_line line))) /\
  (render_line (lit "1. **bold** step") = Some (Numbered (lit "**bold** step")) /\
   card_line (lit "1. **bold** step") = CParagraph (lit "1. bold step")) /\
  (inline (lit "**a***") = lit "<strong>a</strong>*" /\
   clean (lit "**a***") = lit "a").
Proof.
  split; [split; vm_compute; reflexivity|]. split.
  - intros H. specialize (H (lit "1. First step")). vm_compute in H.
    discriminate.
  - split; split; vm_compute; reflexivity.
Qed.

End CardSpec.

(* ================================================================== *)
(** ** The book detail page: images, export, progress *)
(* ================================================================== *)

Module PageFacts.
Import BookDetail Dialect Notions JsFacts RegexFacts PreviewFacts InlineFacts.

Lemma streq_iff a b : streq a b = true <-> a = b.
Proof.
  revert b. induction a as [|x a IH]; intros [|y b]; simpl;
    try (split; [discriminate|congruence]); [tauto|].
  rewrite andb_true_iff, N.eqb_eq, IH. split.
  - intros [-> ->]. reflexivity.
  - intros H. injection H as -> ->. auto.
Qed.

Lemma streq_false_iff a b : streq a b = false <-> a <> b.
Proof.
  pose proof (streq_iff a b) as [A B].
  destruct (streq a b); split; intros H; try congruence.
  - exfalso. apply H, A. reflexivity.
  - intros E. specialize (B E). discriminate.
Qed.

Lemma startsWith_iff p s : startsWith p s = true <-> exists rest, s = p ++ rest.
Proof.
  revert s. induction p as [|a p IH]; intros s; simpl.
  - split; eauto.
  - destruct s as [|b s].
    + split; [discriminate|]. intros (rest & E). discriminate.
    + rewrite andb_true_iff, N.eqb_eq, IH. split.
      * intros (-> & rest & ->). eauto.
      * intros (rest & E). injection E as -> ->. eauto.
Qed.

Lemma insert_chapter_length c l :
  length (insert_chapter c l) = S (length l).
Proof.
  induction l as [|x l IH]; simpl; [reflexivity|].
  destruct (chapter_number c <=? chapter_number x)%Z; simpl; congruence.
Qed.

Lemma sort_chapters_length l : length (sort_chapters l) = length l.
Proof.
  induction l as [|c l IH]; simpl; [reflexivity|].
  rewrite insert_chapter_length, IH. reflexivity.
Qed.

Lemma sorted_chapters_length b :
  length (sorted_chapters b) = length (or_empty (chapters b)).
Proof. apply sort_chapters_length. Qed.

(** *** Whitespace runs *)

Lemma squeeze_run w rest :
  forallb isWhiteSpace w = true ->
  squeeze true (w ++ rest) = squeeze true rest.
Proof.
  induction w as [|c w IH]; simpl; [reflexivity|].
  intros H. apply andb_prop in H as [-> H]. auto.
Qed.

Lemma squeeze_flush rest :
  flush rest -> squeeze true rest = squeeze false rest.
Proof.
  destruct rest as [|c rest]; simpl; [reflexivity|]. intros ->. reflexivity.
Qed.

Lemma replace_spaces n : forall s before,
  length s <= n ->
  replaceAll_from re_spaces underscore 0 before s = squeeze false s.
Proof.
  induction n as [|n IH]; intros s before Le.
  - destruct s; [|simpl in Le; lia].
    apply replaceAll_end, run_rep_blocked; [lia|exact I].
  - destruct s as [|c s].
    + apply replaceAll_end, run_rep_blocked; [lia|exact I].
    + simpl in Le. cbn [squeeze]. destruct (isWhiteSpace c) eqn:W.
      * destruct (span_flush s) as (ws & text & -> & F & Fl).
        assert (M : matchAt re_spaces before ((c :: ws) ++ text)
                    = Some (MRes [] (length (c :: ws) + 0))).
        { apply run_spaces; [|exact Fl].
          split; [discriminate|]. simpl. rewrite W. exact F. }
        cbn [app length] in M.
        rewrite replaceAll_hit with (1 := M) (k := length ws + 0)
          by reflexivity.
        rewrite !Nat.add_0_r, replaceAll_skip, squeeze_run by exact F.
        rewrite squeeze_flush by exact Fl.
        rewrite IH by (rewrite length_app in Le; lia).
        reflexivity.
      * rewrite replaceAll_copy
          by (apply run_rep_blocked; [lia|exact W]).
        rewrite IH by lia. reflexivity.
Qed.

Lemma truthy_present u : truthy_opt u = true <-> present u.
Proof.
  unfold present. destruct u as [[|c s]|]; simpl; split;
    try discriminate; try (intros (s' & E & N); congruence).
  intros _. exists (c :: s). split; [reflexivity|discriminate].
Qed.

(** Membership in a short, explicit list of effects. *)
Ltac in_effects :=
  cbn [app In]; intuition (try discriminate; try congruence).

Lemma download_name_underscored b format :
  download_name b format = underscored (title b) ++ lit "." ++ format.
Proof.
  unfold download_name, replaceAll, underscored.
  rewrite replace_spaces with (n := length (title b)) by lia. reflexivity.
Qed.

End PageFacts.

Module PageSpec.
Import BookDetail Backend Dialect Notions JsFacts RegexFacts PageFacts.

(** C4.  A book with zero chapters offers no export control, so the page
    issues no export request for it; the export endpoint answers such a
    request with [ExportError] and no bytes, and the page then downloads
    nothing.  Export is offered only under [chapters.length > 0]. *)
Theorem no_export_without_chapters
        (serialise : book -> jsstring -> jsstring) (b : book) :
  (forall format, In format (export_requests b) ->
                  0 < length (or_empty (chapters b))) /\
  (length (or_empty (chapters b)) = 0 ->
   export_requests b = [] /\
   forall format,
     exportBook serialise b format = ExportError /\
     exportBook serialise b format <> ExportBytes [] /\
     forall name data,
       ~ In (Download name data)
            (handleExport b format (export_response serialise b format))).
Proof.
  unfold export_requests, header_controls.
  rewrite sorted_chapters_length. split.
  - intros format H.
    destruct (length (or_empty (chapters b))); [contradiction H|lia].
  - intros Z. rewrite Z. split; [reflexivity|]. intros format.
    unfold export_response, exportBook.
    destruct (or_empty (chapters b)); [|discriminate Z].
    repeat split; try discriminate.
    intros name data H. cbn in H.
    repeat destruct H as [H|H]; try discriminate H; exact H.
Qed.

Lemma no_export_without_chapters_witness :
  export_requests empty_book = [] /\
  exportBook (fun _ _ => lit "%PDF") empty_book (lit "pdf") = ExportError.
Proof.
  destruct (no_export_without_chapters (fun _ _ => lit "%PDF") empty_book)
    as [_ H].
  specialize (H eq_refl). destruct H as [H1 H2]. split; [exact H1|].
  exact (proj1 (H2 (lit "pdf"))).
Defined.

(** C5.  A response of [generateChapterImage] takes the success path (the
    book is refetched and the success notification shown) if and only if
    its [image_url] is present, that is set and not the empty string; a
    response without image reports the error "No image could be generated"
    and shows no success; a rejected call reports an error and shows no
    success either. *)
Theorem image_failure_reported (chapterNum : Z) (result : image_result) :
  let effects := handleGenerateImage chapterNum (Resolved result) in
  (In FetchBook effects <-> present (result_image_url result)) /\
  (In (ToastSuccess (ImageGenerated chapterNum)) effects
   <-> present (result_image_url result)) /\
  (forall m, In (ToastSuccess m) effects -> present (result_image_url result)) /\
  (~ present (result_image_url result) <-> In (ToastError NoImage) effects) /\
  (result_image_url result = None ->
   effects = [SetGeneratingImage (Some chapterNum); ToastError NoImage;
              SetGeneratingImage None]) /\
  (forall detail m,
      ~ In FetchBook (handleGenerateImage chapterNum (Rejected detail)) /\
      ~ In (ToastSuccess m) (handleGenerateImage chapterNum (Rejected detail))).
Proof.
  cbv zeta. unfold handleGenerateImage.
  pose proof (truthy_present (result_image_url result)) as TP.
  destruct (truthy_opt (result_image_url result)) eqn:T.
  - assert (P : present (result_image_url result)) by (apply TP; reflexivity).
    repeat split; try solve [in_effects].
    intros E. destruct P as (s & Es & _). congruence.
  - assert (P : ~ present (result_image_url result))
      by (intros P; apply TP in P; discriminate).
    repeat split; solve [in_effects].
Qed.

(** *** The progress poll *)

Lemma polls_away_dec e : polls_away e \/ ~ polls_away e.
Proof.
  destruct e as [|[pr|d]|].
  - right. intros (pr & H & _). discriminate.
  - destruct (streq (progress_status pr) (lit "writing")) eqn:E.
    + right. intros (pr' & H & N). injection H as <-.
      apply streq_iff in E. contradiction.
    + left. exists pr. split; [reflexivity|]. apply streq_false_iff, E.
  - right. intros (pr & H & _). discriminate.
  - right. intros (pr & H & _). discriminate.
Qed.

(** What one event does, case by case. *)
Lemma poll_step_cases p e :
  (e = Fire /\ timer p <> None /\
   poll_step p e = Poll (timer p) (S (pending p)) (refetches p)) \/
  (e = Fire /\ timer p = None /\ poll_step p e = p) \/
  (e = Cleanup /\ poll_step p e = Poll None (pending p) (refetches p)) \/
  ((exists r, e = Answer r) /\ pending p = 0 /\ poll_step p e = p) \/
  (polls_away e /\ 0 < pending p /\
   poll_step p e = Poll None (pending p - 1) (S (refetches p))) \/
  ((exists r, e = Answer r) /\ ~ polls_away e /\ 0 < pending p /\
   poll_step p e = Poll (timer p) (pending p - 1) (refetches p)).
Proof.
  destruct e as [|r|]; cbn [poll_step].
  - destruct (timer p) eqn:T.
    + left. repeat split. discriminate.
    + right. left. destruct p. cbn in *. subst. auto.
  - destruct (pending p) as [|k] eqn:K.
    { right. right. right. left. eauto. }
    replace (S k - 1) with k by lia.
    destruct (polls_away_dec (Answer r)) as [A|A].
    + right. right. right. right. left. split; [exact A|]. split; [lia|].
      destruct A as (pr & E & N). injection E as ->.
      apply streq_false_iff in N. rewrite N. reflexivity.
    + right. right. right. right. right.
      split; [eauto|]. split; [exact A|]. split; [lia|].
      destruct r as [pr|d]; [|reflexivity].
      destruct (streq (progress_status pr) (lit "writing")) eqn:E;
        [reflexivity|].
      exfalso. apply A. exists pr. split; [reflexivity|].
      apply streq_false_iff, E.
  - right. right. left. auto.
Qed.

Lemma poll_run_cons p e es : poll_run p (e :: es) = poll_run (poll_step p e) es.
Proof. reflexivity. Qed.

(** Once the interval is cleared it stays cleared and calls no more; only
    the calls already awaited can still refetch. *)
Lemma poll_run_cleared es : forall p,
  timer p = None ->
  timer (poll_run p es) = None /\
  refetches p <= refetches (poll_run p es) /\
  pending (poll_run p es) + refetches (poll_run p es)
  <= pending p + refetches p.
Proof.
  induction es as [|e es IH]; intros p T; [cbn; split; [exact T|lia]|].
  rewrite poll_run_cons.
  destruct (poll_step_cases p e)
    as [(_ & N & _)|[(_ & _ & E)|[(_ & E)|[(_ & _ & E)|[(_ & K & E)
        |(_ & _ & K & E)]]]]]; [contradiction|rewrite E..].
  - apply IH, T.
  - specialize (IH (Poll None (pending p) (refetches p)) eq_refl).
    cbn [timer pending refetches] in IH. exact IH.
  - apply IH, T.
  - specialize (IH (Poll None (pending p - 1) (S (refetches p))) eq_refl).
    cbn [timer pending refetches] in IH. destruct IH as (A & B & C).
    split; [exact A|lia].
  - specialize (IH (Poll (timer p) (pending p - 1) (refetches p)) T).
    cbn [timer pending refetches] in IH. destruct IH as (A & B & C).
    split; [exact A|lia].
Qed.

Lemma poll_run_idle es : forall p,
  timer p = None -> pending p = 0 -> poll_run p es = p.
Proof.
  induction es as [|e es IH]; intros p T K; [reflexivity|].
  rewrite poll_run_cons.
  destruct (poll_step_cases p e)
    as [(_ & N & _)|[(_ & _ & E)|[(_ & E)|[(_ & _ & E)|[(_ & K' & _)
        |(_ & _ & K' & _)]]]]]; [contradiction| | | |lia|lia].
  - rewrite E. apply IH; assumption.
  - rewrite E, IH by (cbn; auto). destruct p. cbn in *. subst. reflexivity.
  - rewrite E. apply IH; assumption.
Qed.

(** Polls answered in turn refetch the book at most once. *)
Lemma poll_run_in_turn es :
  in_turn es ->
  forall p, pending p = 0 ->
            pending (poll_run p es) = 0 /\
            refetches p <= refetches (poll_run p es) <= S (refetches p).
Proof.
  induction 1 as [|es _ _|r es _ IH]; intros p K.
  - cbn. lia.
  - rewrite poll_run_cons. cbn [poll_step].
    rewrite poll_run_idle by (cbn; auto). cbn. lia.
  - rewrite !poll_run_cons.
    destruct (timer p) as [t|] eqn:T.
    + assert (F : poll_step p Fire = Poll (Some t) 1 (refetches p)).
      { cbn [poll_step]. rewrite T, K. reflexivity. }
      rewrite F.
      destruct (poll_step_cases (Poll (Some t) 1 (refetches p)) (Answer r))
        as [(E & _)|[(E & _)|[(E & _)|[(_ & K' & _)|[(_ & _ & E)
            |(_ & _ & _ & E)]]]]]; try discriminate; rewrite E;
        cbn [timer pending refetches Nat.sub].
      * rewrite poll_run_idle by reflexivity. cbn. lia.
      * specialize (IH (Poll (Some t) 0 (refetches p)) eq_refl).
        cbn [pending refetches] in IH. exact IH.
    + assert (F : poll_step p Fire = p) by (cbn [poll_step]; rewrite T; reflexivity).
      rewrite F.
      assert (A : poll_step p (Answer r) = p) by (cbn [poll_step]; rewrite K; reflexivity).
      rewrite A. apply IH, K.
Qed.

(** C6, as amended.  The effect installs the 5000 ms interval if and only
    if there is a book whose status is "writing".  An installed interval
    is cleared exactly by the answer to an awaited poll that reports a
    status other than "writing", or by the effect's cleanup.  Every such
    answer refetches the book, also when it arrives after the interval was
    cleared; no other event refetches.  Once cleared, the interval stays
    cleared and polls no more, so that only the polls awaited at that
    moment can still refetch.  When the events come in turn, each poll
    answered before the next event, the book is refetched at most once. *)
Theorem poll_lifecycle :
  (forall b n,
      timer (install b n) = Some 5000%N
      <-> exists bk, b = Some bk /\ status bk = lit "writing") /\
  (forall b n,
      (timer (install b n) = None \/ timer (install b n) = Some 5000%N) /\
      pending (install b n) = 0 /\ refetches (install b n) = n) /\
  (forall p t e,
      timer p = Some t ->
      (timer (poll_step p e) = None
       <-> (polls_away e /\ 0 < pending p) \/ e = Cleanup) /\
      (timer (poll_step p e) = None \/ timer (poll_step p e) = Some t)) /\
  (forall p e,
      (polls_away e -> 0 < pending p ->
       timer (poll_step p e) = None /\
       refetches (poll_step p e) = S (refetches p)) /\
      (~ (polls_away e /\ 0 < pending p) ->
       refetches (poll_step p e) = refetches p) /\
      (pending (poll_step p e) = S (pending p)
       <-> e = Fire /\ timer p <> None)) /\
  (forall p es,
      timer p = None ->
      timer (poll_run p es) = None /\
      refetches p <= refetches (poll_run p es) /\
      pending (poll_run p es) + refetches (poll_run p es)
      <= pending p + refetches p) /\
  (forall p es,
      pending p = 0 -> in_turn es ->
      refetches p <= refetches (poll_run p es) <= S (refetches p)).
Proof.
  split; [|split; [|split; [|split; [|split]]]].
  - intros [b|] n; cbn [install].
    + destruct (streq (status b) (lit "writing")) eqn:E; cbn [negb timer].
      * apply streq_iff in E. split; [eauto|reflexivity].
      * apply streq_false_iff in E. split; [discriminate|].
        intros (bk & H & S). congruence.
    + split; [discriminate|]. intros (bk & H & _). discriminate.
  - intros [b|] n; cbn [install]; [|auto].
    destruct (negb (streq (status b) (lit "writing"))); auto.
  - intros p t e T.
    destruct (poll_step_cases p e)
      as [(F & _ & E)|[(_ & N & _)|[(C & E)|[((r & A) & K & E)|[(A & K & E)
          |((r & A) & NA & K & E)]]]]]; [|congruence|..]; rewrite E;
      cbn [timer]; rewrite ?T.
    + split; [|auto]. split; [discriminate|].
      intros [((pr & H & _) & _)|H]; subst e; discriminate.
    + split; [|auto]. split; auto.
    + split; [|auto]. split; [discriminate|].
      intros [(_ & L)|H]; [lia|subst e; discriminate].
    + split; [|auto]. split; auto.
    + split; [|auto]. split; [discriminate|].
      intros [(PA & _)|H]; [contradiction|subst e; discriminate].
  - intros p e.
    destruct (poll_step_cases p e)
      as [(F & N & E)|[(F & N & E)|[(C & E)|[((r & A) & K & E)|[(A & K & E)
          |((r & A) & NA & K & E)]]]]]; rewrite E;
      cbn [timer pending refetches].
    + split; [|split].
      * intros (pr & H & _). subst e. discriminate.
      * reflexivity.
      * split; auto.
    + split; [|split].
      * intros (pr & H & _). subst e. discriminate.
      * reflexivity.
      * split; [lia|]. intros (_ & H). contradiction.
    + split; [|split].
      * intros (pr & H & _). subst e. discriminate.
      * reflexivity.
      * split; [lia|]. intros (H & _). subst e. discriminate.
    + split; [|split].
      * intros _ L. lia.
      * reflexivity.
      * split; [lia|]. intros (H & _). subst e. discriminate.
    + split; [|split].
      * auto.
      * intros H. exfalso. apply H. auto.
      * split; [lia|]. intros (H & _). destruct A as (pr & A & _).
        subst e. discriminate.
    + split; [|split].
      * intros PA. contradiction.
      * reflexivity.
      * split; [lia|]. intros (H & _). subst e. discriminate.
  - intros p es. apply poll_run_cleared.
  - intros p es K T. apply (poll_run_in_turn T), K.
Qed.

Lemma poll_lifecycle_witness :
  timer (poll_step (poll_step (install (Some written_book) 0) Fire)
                   (Answer (Resolved done)))
  = None.
Proof.
  destruct poll_lifecycle as (_ & _ & H & _).
  apply (H (poll_step (install (Some written_book) 0) Fire) 5000%N);
    [reflexivity|].
  left. split; [|cbn; lia].
  eexists. split; [reflexivity|]. discriminate.
Defined.

(** C6 as it was stated fails: the effect's cleanup clears an installed
    interval although no poll has reported anything, and then the book is
    not refetched; an answer that arrives after the cleanup still
    refetches the book; and two polls awaited together that both report
    the end of the writing refetch it twice. *)
Lemma poll_lifecycle_counterexample :
  timer (install (Some written_book) 0) = Some 5000%N /\
  timer (poll_run (install (Some written_book) 0) [Cleanup]) = None /\
  refetches (poll_run (install (Some written_book) 0) [Cleanup]) = 0 /\
  ~ (forall p t e,
        timer p = Some t ->
        (timer (poll_step p e) = None <-> polls_away e)) /\
  refetches (poll_run (install (Some written_book) 0)
                      [Fire; Cleanup; Answer (Resolved done)]) = 1 /\
  refetches (poll_run (install (Some written_book) 0)
                      [Fire; Fire; Answer (Resolved done);
                       Answer (Resolved done)]) = 2.
Proof.
  split; [reflexivity|]. split; [reflexivity|]. split; [reflexivity|].
  split; [|split; reflexivity].
  intros H.
  destruct (H (install (Some written_book) 0) 5000%N Cleanup eq_refl) as [A _].
  destruct (A eq_refl) as (pr & E & _). discriminate.
Qed.

(** *** Download names *)

(** C8.  A successful export downloads the answered bytes under the
    book's title with every maximal run of whitespace replaced by one
    underscore, followed by '.' and the format. *)
Theorem export_download_name (b : book) (format data : jsstring) :
  handleExport b format (Resolved data)
  = [SetExporting true;
     Download (underscored (title b) ++ lit "." ++ format) data;
     ToastSuccess (Exported format);
     SetExporting false].
Proof.
  unfold handleExport. rewrite download_name_underscored. reflexivity.
Qed.

(** *** Image sources *)

(** C9.  [getImageSrc] returns null for an absent or empty URL, the
    backend base URL followed by the URL when the URL starts with "/api",
    and the URL itself in every other case. *)
Theorem getImageSrc_cases (BACKEND_URL : jsstring) (url : option jsstring) :
  (url = None \/ url = Some [] -> getImageSrc BACKEND_URL url = None) /\
  (forall rest,
      url = Some (lit "/api" ++ rest) ->
      getImageSrc BACKEND_URL url = Some (BACKEND_URL ++ lit "/api" ++ rest)) /\
  (forall u,
      url = Some u -> u <> [] -> (forall rest, u <> lit "/api" ++ rest) ->
      getImageSrc BACKEND_URL url = Some u) /\
  (forall u,
      url = Some u -> u <> [] ->
      (getImageSrc BACKEND_URL url = Some (BACKEND_URL ++ u) /\
       exists rest, u = lit "/api" ++ rest) \/
      (getImageSrc BACKEND_URL url = Some u /\
       forall rest, u <> lit "/api" ++ rest)).
Proof.
  repeat split.
  - intros [->| ->]; reflexivity.
  - intros rest ->. reflexivity.
  - intros u -> N H. unfold getImageSrc.
    rewrite PreviewSpec.truthy_nonempty by exact N. cbn [negb].
    destruct (startsWith (lit "/api") u) eqn:E; [|reflexivity].
    apply startsWith_iff in E as (rest & E). destruct (H _ E).
  - intros u -> N. unfold getImageSrc.
    rewrite PreviewSpec.truthy_nonempty by exact N. cbn [negb].
    destruct (startsWith (lit "/api") u) eqn:E.
    + left. split; [reflexivity|]. apply startsWith_iff, E.
    + right. split; [reflexivity|]. intros rest H.
      assert (startsWith (lit "/api") u = true)
        by (apply startsWith_iff; eauto).
      congruence.
Qed.

Lemma getImageSrc_cases_witness :
  getImageSrc (lit "https://host") (Some (lit "/api/images/1"))
  = Some (lit "https://host/api/images/1") /\
  getImageSrc (lit "https://host") (Some (lit "https://picsum.photos/7"))
  = Some (lit "https://picsum.photos/7").
Proof.
  split.
  - apply (proj1 (proj2 (getImageSrc_cases (lit "https://host")
                           (Some (lit "/api/images/1"))))
                 (lit "/images/1")).
    reflexivity.
  - apply (proj1 (proj2 (proj2 (getImageSrc_cases (lit "https://host")
                           (Some (lit "https://picsum.photos/7")))))
                 (lit "https://picsum.photos/7")).
    + reflexivity.
    + discriminate.
    + intros rest. discriminate.
Defined.

(** *** Writing progress *)

Lemma max_one_positive n : 1 <= Nat.max n 1.
Proof. lia. Qed.




End PageSpec.

(* ================================================================== *)
(** ** The creation flow: when polling ends *)
(* ================================================================== *)

Module CreatorSpec.
Import BookDetail BookCreator Dialect Notions PageFacts.

Lemma tick_cases bookId p :
  (wp_status p = lit "chapters_complete" /\
   pollProgress_tick bookId (Resolved p)
   = [SetWritingProgress p; ClearInterval; ToastBookComplete;
      Navigate (lit "/book/" ++ bookId)]) \/
  (wp_status p = lit "error" /\
   pollProgress_tick bookId (Resolved p)
   = [SetWritingProgress p; ClearInterval;
      ToastGenerationError
        (or_else (wp_error p) (lit "Error during generation"))]) \/
  (~ terminal p /\
   pollProgress_tick bookId (Resolved p) = [SetWritingProgress p]).
Proof.
  unfold pollProgress_tick, terminal.
  destruct (streq (wp_status p) (lit "chapters_complete")) eqn:C.
  { left. apply streq_iff in C. auto. }
  destruct (streq (wp_status p) (lit "error")) eqn:E.
  { right. left. apply streq_iff in E. auto. }
  right. right. apply streq_false_iff in C, E. tauto.
Qed.

Lemma tick_clears bookId r :
  clears (pollProgress_tick bookId r) = false <-> goes_on r.
Proof.
  destruct r as [p|d]; cbn [goes_on]; [|cbn; tauto].
  destruct (tick_cases bookId p) as [[S ->]|[[S ->]|[N ->]]]; cbn.
  - unfold terminal. split; [discriminate|tauto].
  - unfold terminal. split; [discriminate|tauto].
  - tauto.
Qed.

Lemma run_cleared bookId rs : pollProgress_run bookId None rs = (None, []).
Proof. destruct rs; reflexivity. Qed.

Lemma run_installed bookId t rs :
  fst (pollProgress_run bookId (Some t) rs) = Some t <-> Forall goes_on rs.
Proof.
  induction rs as [|r rs IH]; cbn [pollProgress_run].
  - split; [constructor|reflexivity].
  - pose proof (tick_clears bookId r) as TC.
    destruct (clears (pollProgress_tick bookId r)).
    + rewrite run_cleared. cbn [fst]. split; [discriminate|].
      intros H. inversion H as [|? ? G _]; subst.
      apply TC in G. discriminate.
    + destruct (pollProgress_run bookId (Some t) rs) as [t' later] eqn:E.
      cbn [fst] in *. rewrite IH. split.
      * intros H. constructor; [apply TC; reflexivity|exact H].
      * intros H. inversion H; assumption.
Qed.

(** C7.  The creation-flow poll treats exactly "chapters_complete" and
    "error" as terminal: on "chapters_complete" it clears the interval and
    navigates to the book, on "error" it clears the interval and shows the
    recorded error message; for every other status, and for a failed call,
    it leaves the 5000 ms interval installed. *)
Theorem creation_poll_terminal (bookId : jsstring) :
  poll_period = 5000%N /\
  (forall r, clears (pollProgress_tick bookId r) = true
             <-> exists p, r = Resolved p /\ terminal p) /\
  (forall p,
      wp_status p = lit "chapters_complete" ->
      pollProgress_tick bookId (Resolved p)
      = [SetWritingProgress p; ClearInterval; ToastBookComplete;
         Navigate (lit "/book/" ++ bookId)]) /\
  (forall p,
      wp_status p = lit "error" ->
      pollProgress_tick bookId (Resolved p)
      = [SetWritingProgress p; ClearInterval;
         ToastGenerationError
           (or_else (wp_error p) (lit "Error during generation"))] /\
      (forall msg, wp_error p = Some msg -> msg <> [] ->
                   or_else (wp_error p) (lit "Error during generation") = msg)) /\
  (forall p,
      ~ terminal p ->
      pollProgress_tick bookId (Resolved p) = [SetWritingProgress p]) /\
  (forall detail, pollProgress_tick bookId (Rejected detail) = []) /\
  (forall rs,
      fst (pollProgress bookId rs) = Some poll_period <-> Forall goes_on rs) /\
  (forall rs,
      fst (pollProgress bookId rs) = None \/
      fst (pollProgress bookId rs) = Some poll_period).
Proof.
  split; [reflexivity|]. split; [|split; [|split; [|split; [|split; [|split]]]]].
  - intros r. pose proof (tick_clears bookId r) as TC.
    destruct (clears (pollProgress_tick bookId r)); split.
    + intros _. destruct r as [p|d].
      * exists p. split; [reflexivity|].
        destruct (tick_cases bookId p) as [[S _]|[[S _]|[N _]]];
          unfold terminal; auto.
        destruct TC as [_ TC]. specialize (TC N). discriminate.
      * destruct TC as [_ TC]. specialize (TC I). discriminate.
    + reflexivity.
    + discriminate.
    + intros (p & -> & T). destruct TC as [TC _].
      exfalso. exact (TC eq_refl T).
  - intros p S.
    destruct (tick_cases bookId p) as [[_ E]|[[S' _]|[N _]]]; [exact E|..].
    + rewrite S in S'. discriminate.
    + exfalso. apply N. left. exact S.
  - intros p S. split.
    + destruct (tick_cases bookId p) as [[S' _]|[[_ E]|[N _]]]; [|exact E|].
      * rewrite S in S'. discriminate.
      * exfalso. apply N. right. exact S.
    + intros msg E N. rewrite E. destruct msg; [congruence|reflexivity].
  - intros p N.
    destruct (tick_cases bookId p) as [[S _]|[[S _]|[_ E]]]; [..|exact E];
      exfalso; apply N; unfold terminal; auto.
  - reflexivity.
  - intros rs. apply run_installed.
  - intros rs. unfold pollProgress. generalize poll_period. intros t.
    induction rs as [|r rs IH]; cbn [pollProgress_run]; [auto|].
    destruct (clears (pollProgress_tick bookId r)).
    + rewrite run_cleared. auto.
    + destruct (pollProgress_run bookId (Some t) rs). exact IH.
Qed.

Lemma creation_poll_terminal_witness :
  pollProgress_tick (lit "b1")
    (Resolved (WritingProgress (lit "error") (Some (lit "quota")) 2 5))
  = [SetWritingProgress (WritingProgress (lit "error") (Some (lit "quota")) 2 5);
     ClearInterval; ToastGenerationError (lit "quota")].
Proof.
  destruct (creation_poll_terminal (lit "b1")) as (_ & _ & _ & H & _).
  apply (H (WritingProgress (lit "error") (Some (lit "quota")) 2 5)).
  reflexivity.
Defined.

End CreatorSpec.

(* ================================================================== *)
(** ** Whole chapters: lines, indentation, plain text *)
(* ================================================================== *)

Module ContentSpec.
Import Preview Card Dialect Notions ChapterList.
Import JsFacts RegexFacts PreviewFacts PreviewSpec InlineFacts.

(** *** [split] and [join] *)

Lemma split_nonempty sep s : split sep s <> [].
Proof.
  destruct s as [|c s]; simpl; [discriminate|].
  destruct (c =? sep)%N; [discriminate|].
  destruct (split sep s); discriminate.
Qed.

Lemma join_split sep s : join sep (split sep s) = s.
Proof.
  induction s as [|c s IH]; [reflexivity|].
  cbn [split]. destruct (N.eqb_spec c sep) as [->|N].
  - pose proof (split_nonempty sep s) as NE.
    cbn [join]. destruct (split sep s) as [|l ls]; [congruence|].
    cbn [app]. f_equal. exact IH.
  - pose proof (split_nonempty sep s) as NE.
    destruct (split sep s) as [|l ls]; [congruence|].
    rewrite <- IH. cbn [join]. destruct ls; reflexivity.
Qed.

Lemma split_length sep s : length (split sep s) = S (occurrences sep s).
Proof.
  unfold occurrences. induction s as [|c s IH]; [reflexivity|].
  cbn [split count_occ]. pose proof (split_nonempty sep s) as NE.
  destruct (N.eqb_spec c sep) as [->|N].
  - destruct (N.eq_dec sep sep); [|congruence]. simpl. congruence.
  - destruct (N.eq_dec c sep); [congruence|].
    destruct (split sep s); [congruence|]. exact IH.
Qed.

Lemma split_no_sep sep s : Forall (fun l => ~ In sep l) (split sep s).
Proof.
  induction s as [|c s IH]; cbn [split].
  - constructor; [intros []|constructor].
  - destruct (N.eqb_spec c sep) as [->|N].
    + constructor; [intros []|exact IH].
    + destruct (split sep s) as [|l ls]; [repeat constructor; intros [E|[]]; congruence|].
      inversion IH as [|? ? Hl Hls]; subst. constructor; [|exact Hls].
      intros [E|H]; [congruence|exact (Hl H)].
Qed.

(** *** [trim] *)

Lemma trimStart_pad pad s :
  forallb isWhiteSpace pad = true -> trimStart (pad ++ s) = trimStart s.
Proof.
  induction pad as [|c pad IH]; simpl; [reflexivity|].
  intros H. apply andb_prop in H as [-> H]. exact (IH H).
Qed.

Lemma trimStart_app u v :
  trimStart u <> [] -> trimStart (u ++ v) = trimStart u ++ v.
Proof.
  induction u as [|c u IH]; simpl; [congruence|].
  destruct (isWhiteSpace c); [exact IH|reflexivity].
Qed.

Lemma trimEnd_pad s pad :
  forallb isWhiteSpace pad = true -> trimEnd (s ++ pad) = trimEnd s.
Proof.
  intros H. unfold trimEnd. rewrite rev_app_distr, trimStart_pad; [reflexivity|].
  rewrite forallb_rev. exact H.
Qed.

Lemma trimEnd_nil : trimEnd [] = [].
Proof. reflexivity. Qed.

Lemma trim_pad pad s pad' :
  forallb isWhiteSpace pad = true -> forallb isWhiteSpace pad' = true ->
  trim (pad ++ s ++ pad') = trim s.
Proof.
  intros P P'. unfold trim. rewrite trimStart_pad by exact P.
  destruct (trimStart s) as [|c t] eqn:E.
  - apply trimStart_nil_iff in E.
    assert (A : trimStart (s ++ pad') = []).
    { apply trimStart_nil_iff. rewrite forallb_app, E, P'. reflexivity. }
    rewrite A. reflexivity.
  - rewrite trimStart_app by congruence. rewrite E.
    apply trimEnd_pad, P'.
Qed.

(** A trimmed string neither begins nor ends with whitespace. *)
Lemma trim_ends s : flush (trim s) /\ flush (rev (trim s)).
Proof.
  unfold trim, trimEnd. split.
  - pose proof (flush_trimStart s) as F.
    destruct (trimStart s) as [|c t] eqn:E; [exact I|].
    cbn [rev]. simpl in F.
    destruct (trimStart (rev t)) as [|c' t'] eqn:R.
    + apply trimStart_nil_iff in R. rewrite trimStart_pad by exact R.
      simpl. rewrite F. exact F.
    + rewrite trimStart_app by congruence. rewrite R, rev_app_distr.
      exact F.
  - rewrite rev_involutive. apply flush_trimStart.
Qed.

(** *** Every line is rendered *)

Lemma render_lines ls :
  exists bs,
    map render_line ls = map Some bs /\
    Forall2 (fun ln b => dialect (trim ln) b) ls bs.
Proof.
  induction ls as [|ln ls (bs & E & F)].
  - exists []. split; [reflexivity|constructor].
  - destruct (dialect_total (trim ln)) as (b & D).
    exists (b :: bs). cbn [map]. rewrite (render_sound _ D), E.
    split; [reflexivity|constructor; assumption].
Qed.

(** X1.  The full preview renders one block for every line of a chapter:
    it never fails, the number of blocks is the number of newlines plus
    one, each block is the one the dialect gives to the trimmed line, and
    the lines are the content cut at its newlines (joined again they give
    the content back, and none contains a newline). *)
Theorem preview_renders_every_line (content : jsstring) :
  exists bs,
    render (Some content) = Some (map Some bs) /\
    length bs = S (occurrences newline content) /\
    Forall2 (fun ln b => dialect (trim ln) b) (lines content) bs /\
    join newline (lines content) = content /\
    Forall (fun ln => ~ In newline ln) (lines content).
Proof.
  destruct (render_lines (lines content)) as (bs & E & F).
  exists bs. cbn [render option_map]. rewrite E. repeat split.
  - rewrite <- (Forall2_length F). apply split_length.
  - exact F.
  - apply join_split.
  - apply split_no_sep.
Qed.

(** X2.  Whitespace around a line changes nothing: a line and the same
    line with whitespace before and after it give the same block, in the
    full preview and in the card (an indented list item is an ordinary
    list item). *)
Theorem indentation_ignored (pad line pad' : jsstring) :
  forallb isWhiteSpace pad = true -> forallb isWhiteSpace pad' = true ->
  render_line (pad ++ line ++ pad') = render_line line /\
  card_line (pad ++ line ++ pad') = card_line line.
Proof.
  intros P P'. unfold render_line, card_line.
  rewrite (trim_pad _ line _ P P'). split; reflexivity.
Qed.

Lemma indentation_ignored_witness :
  render_line (lit "    - nested item  ") = render_line (lit "- nested item").
Proof.
  apply (indentation_ignored (lit "    ") (lit "- nested item") (lit "  "));
    reflexivity.
Defined.

(** *** The text of headings and list items *)

Lemma tail_tight (p ws x : jsstring) :
  blanks ws -> flush (rev (p ++ ws ++ x)) -> x <> [] /\ flush (rev x).
Proof.
  intros [N B] F. rewrite !rev_app_distr, <- app_assoc in F.
  destruct x as [|c x].
  - exfalso. cbn [rev app] in F.
    assert (R : forallb isWhiteSpace (rev ws) = true)
      by (rewrite forallb_rev; exact B).
    destruct (rev ws) as [|w r] eqn:E.
    + apply N. rewrite <- (rev_involutive ws), E. reflexivity.
    + simpl in F, R. apply andb_prop in R as [R _]. congruence.
  - split; [discriminate|].
    apply stops_app_l with (y := rev ws ++ rev p); [|exact F].
    intros E. apply (f_equal (@rev char)) in E.
    rewrite rev_involutive in E. discriminate.
Qed.

(** X3.  The text of a heading, of a bullet item and of a numbered item is
    never empty and neither begins nor ends with whitespace, and a heading
    level is between 1 and 4: a marker without text after it is not a
    heading or list item. *)
Theorem item_text_tight (line : jsstring) :
  (forall k x, render_line line = Some (Heading k x) ->
               1 <= k <= 4 /\ x <> [] /\ flush x /\ flush (rev x)) /\
  (forall x, render_line line = Some (Bullet x) ->
             x <> [] /\ flush x /\ flush (rev x)) /\
  (forall x, render_line line = Some (Numbered x) ->
             x <> [] /\ flush x /\ flush (rev x)).
Proof.
  pose proof (proj2 (trim_ends line)) as T.
  split; [|split].
  - intros k x H. apply render_complete in H.
    inversion H as [|k' ws text Hk B Fl E| | |]; subst.
    rewrite <- E in T. destruct (@tail_tight (repeat hash k) ws x B T). auto.
  - intros x H. apply render_complete in H.
    inversion H as [| |m ws text M B Fl E| |]; subst.
    rewrite <- E in T. destruct (@tail_tight [m] ws x B T). auto.
  - intros x H. apply render_complete in H.
    inversion H as [| | |ds p ws text N D P B Fl E|]; subst.
    rewrite <- E in T.
    destruct (@tail_tight (ds ++ [p]) ws x B); auto.
    rewrite <- app_assoc. exact T.
Qed.

(** *** Text without asterisks *)

Lemma literal_verbatim t : literal t -> inline t = t /\ clean t = t.
Proof.
  intros L.
  assert (W : well_spaced [Plain t]) by (constructor; [exact L|constructor]).
  pose proof (inline_spans W) as I. pose proof (clean_spans W) as C.
  unfold written, marked, shown in *. cbn [map concat source markup body] in *.
  rewrite app_nil_r in *. auto.
Qed.

(** X4.  A paragraph line without asterisk reaches the page as it is: the
    html handed to [dangerouslySetInnerHTML] is the trimmed line, character
    for character (nothing is escaped), and the card shows the same
    text. *)
Theorem plain_text_verbatim (line : jsstring) :
  literal (trim line) ->
  inline (trim line) = trim line /\
  clean (trim line) = trim line /\
  (forall html, render_line line = Some (Paragraph html) -> html = trim line) /\
  (forall text, card_line line = CParagraph text -> text = trim line).
Proof.
  intros L. destruct (literal_verbatim L) as [I C]. repeat split; auto.
  - intros html H. apply render_complete in H. inversion H. exact I.
  - intros text. unfold card_line. cbv zeta.
    destruct (negb (truthy (trim line))); [discriminate|].
    destruct (test re_heading (trim line)); [discriminate|].
    destruct (test re_bullet (trim line)); [discriminate|].
    intros H. injection H as <-. exact C.
Qed.

Lemma plain_text_verbatim_witness :
  literal (trim (lit " <b>Tom & Jerry</b> ")) /\
  inline (trim (lit " <b>Tom & Jerry</b> ")) = lit "<b>Tom & Jerry</b>".
Proof.
  split; [reflexivity|].
  exact (proj1 (plain_text_verbatim (lit " <b>Tom & Jerry</b> ") eq_refl)).
Defined.

(** *** The card's excerpt *)

(** X5.  The card renders the first 30 lines of a chapter and no more: it
    shows min(30, newlines + 1) blocks, block by block those of the first
    lines, and the hint to open the full preview appears exactly when the
    chapter has more than 30 lines, that is when lines were left out. *)
Theorem card_excerpt (content : jsstring) :
  exists cs,
    card (Some content) = Some cs /\
    cs = map card_line (firstn 30 (lines content)) /\
    length cs = Nat.min 30 (S (occurrences newline content)) /\
    (card_hint (Some content) = true <-> 30 <= occurrences newline content) /\
    (card_hint (Some content) = false
     <-> length cs = S (occurrences newline content)).
Proof.
  exists (map card_line (firstn 30 (lines content))).
  assert (SL : length (lines content) = S (occurrences newline content))
    by apply split_length.
  assert (L : length (map card_line (firstn 30 (lines content)))
              = Nat.min 30 (S (occurrences newline content)))
    by (rewrite length_map, length_firstn, SL; reflexivity).
  cbn [card option_map card_hint]. rewrite L, SL. repeat split; auto.
  - intros H. apply Nat.ltb_lt in H. lia.
  - intros H. apply Nat.ltb_lt. lia.
  - intros H. apply Nat.ltb_ge in H. lia.
  - intros H. apply Nat.ltb_ge. lia.
Qed.

End ContentSpec.

(* ================================================================== *)
(** ** The chapter list of the book detail page *)
(* ================================================================== *)

Module ChapterListSpec.
Import BookDetail Dialect Notions ChapterList PageFacts.
Import Stdlib.Sorting.Sorted Stdlib.Sorting.Permutation.

(** *** Sorting *)

Lemma insert_chapter_perm c l : Permutation (insert_chapter c l) (c :: l).
Proof.
  induction l as [|x l IH]; simpl; [apply Permutation_refl|].
  destruct (chapter_number c <=? chapter_number x)%Z.
  - apply Permutation_refl.
  - apply perm_trans with (x :: c :: l); [|apply perm_swap].
    apply perm_skip, IH.
Qed.

Lemma sort_chapters_perm l : Permutation (sort_chapters l) l.
Proof.
  induction l as [|c l IH]; simpl; [constructor|].
  apply perm_trans with (c :: sort_chapters l);
    [apply insert_chapter_perm|apply perm_skip, IH].
Qed.

Lemma insert_chapter_hd x c l :
  HdRel by_number x l -> by_number x c -> HdRel by_number x (insert_chapter c l).
Proof.
  intros H Hc. destruct l as [|y l]; simpl; [constructor; exact Hc|].
  destruct (chapter_number c <=? chapter_number y)%Z; constructor;
    [exact Hc|]. inversion H. assumption.
Qed.

Lemma insert_chapter_sorted c l :
  Sorted by_number l -> Sorted by_number (insert_chapter c l).
Proof.
  induction l as [|x l IH]; intros S; simpl; [repeat constructor|].
  destruct (chapter_number c <=? chapter_number x)%Z eqn:E.
  - constructor; [exact S|]. constructor. apply Z.leb_le, E.
  - inversion S as [|? ? S' H]; subst. constructor; [apply IH, S'|].
    apply insert_chapter_hd; [exact H|].
    apply Z.leb_gt in E. unfold by_number. lia.
Qed.

Lemma sort_chapters_sorted l : Sorted by_number (sort_chapters l).
Proof.
  induction l as [|c l IH]; simpl; [constructor|].
  apply insert_chapter_sorted, IH.
Qed.

Lemma filter_insert_chapter n c l :
  filter (has_number n) (insert_chapter c l) = filter (has_number n) (c :: l).
Proof.
  induction l as [|x l IH]; [reflexivity|].
  cbn [insert_chapter].
  destruct (chapter_number c <=? chapter_number x)%Z eqn:E; [reflexivity|].
  apply Z.leb_gt in E. cbn [filter] in *. rewrite IH. unfold has_number.
  destruct (Z.eqb_spec (chapter_number c) n), (Z.eqb_spec (chapter_number x) n);
    try reflexivity. lia.
Qed.

Lemma filter_sort_chapters n l :
  filter (has_number n) (sort_chapters l) = filter (has_number n) l.
Proof.
  induction l as [|c l IH]; [reflexivity|].
  cbn [sort_chapters fold_right]. fold (sort_chapters l).
  rewrite filter_insert_chapter. cbn [filter]. rewrite IH. reflexivity.
Qed.

Lemma find_filter {A} (p : A -> bool) l : find p l = hd_error (filter p l).
Proof.
  induction l as [|x l IH]; [reflexivity|]. simpl.
  destruct (p x); [reflexivity|exact IH].
Qed.

Lemma find_chapter_sorted n l :
  find_chapter n (sort_chapters l) = find_chapter n l.
Proof.
  unfold find_chapter. rewrite !find_filter.
  change (fun c : chapter => (chapter_number c =? n)%Z) with (has_number n).
  rewrite filter_sort_chapters. reflexivity.
Qed.

(** X6.  The page lists the chapters of a book by ascending chapter
    number: the sorted list is in order, has exactly the chapters of the
    book (none lost, none repeated), and chapters with the same number
    keep the order they came in. *)
Theorem chapters_in_order (b : book) :
  Sorted by_number (sorted_chapters b) /\
  Permutation (sorted_chapters b) (or_empty (chapters b)) /\
  (forall n, filter (has_number n) (sorted_chapters b)
             = filter (has_number n) (or_empty (chapters b))).
Proof.
  unfold sorted_chapters. repeat split.
  - apply sort_chapters_sorted.
  - apply sort_chapters_perm.
  - intros n. apply filter_sort_chapters.
Qed.

(** *** Rows *)

Lemma find_chapter_some n l c :
  find_chapter n l = Some c -> In c l /\ chapter_number c = n.
Proof.
  unfold find_chapter. intros H. apply find_some in H as [I E].
  split; [exact I|]. apply Z.eqb_eq, E.
Qed.

Lemma find_chapter_none n l :
  find_chapter n l = None <-> ~ exists c, In c l /\ chapter_number c = n.
Proof.
  unfold find_chapter. split.
  - intros H (c & I & E). pose proof (find_none _ _ H c I) as F.
    cbn beta in F. apply Z.eqb_neq in F. contradiction.
  - intros H. destruct (find _ l) as [c|] eqn:E; [|reflexivity].
    exfalso. apply H. exists c. apply find_some in E as [I E].
    split; [exact I|]. apply Z.eqb_eq, E.
Qed.

Lemma row_found b r :
  In r (chapter_rows b) ->
  In (row_entry r) (or_empty (outline b)) /\
  row_chapter r
  = find_chapter (entry_number (row_entry r)) (or_empty (chapters b)).
Proof.
  unfold chapter_rows. intros H. apply in_map_iff in H as (e & <- & I).
  cbn [row_entry row_chapter]. split; [exact I|].
  apply find_chapter_sorted.
Qed.

(** X7.  The card of an outline entry shows the first chapter of the book
    that carries the entry's number, whatever the order of the chapters:
    the entry counts as generated exactly when the book has such a
    chapter, the button to generate the chapter is offered exactly when it
    has none, and the button to delete an image only for a chapter whose
    image is set. *)
Theorem rows_follow_chapters (b : book) :
  (forall n, find_chapter n (sorted_chapters b)
             = find_chapter n (or_empty (chapters b))) /\
  length (chapter_rows b) = length (or_empty (outline b)) /\
  (forall r,
      In r (chapter_rows b) ->
      In (row_entry r) (or_empty (outline b)) /\
      (isGenerated r = true
       <-> exists c, In c (or_empty (chapters b)) /\
                     chapter_number c = entry_number (row_entry r)) /\
      (forall c, row_chapter r = Some c ->
                 In c (or_empty (chapters b)) /\
                 chapter_number c = entry_number (row_entry r)) /\
      (row_controls r = [GenerateChapterButton (entry_number (row_entry r))]
       <-> ~ exists c, In c (or_empty (chapters b)) /\
                       chapter_number c = entry_number (row_entry r)) /\
      (In (DeleteImageButton (entry_number (row_entry r))) (row_controls r)
       <-> exists c, row_chapter r = Some c /\ present (image_url c))).
Proof.
  split; [|split].
  - intros n. apply find_chapter_sorted.
  - unfold chapter_rows. apply length_map.
  - intros r H. destruct (row_found b r H) as [I F].
    pose proof (find_chapter_none (entry_number (row_entry r))
                                  (or_empty (chapters b))) as FN.
    pose proof (@find_chapter_some (entry_number (row_entry r))
                                   (or_empty (chapters b))) as FS.
    rewrite <- F in FN, FS. unfold row_controls, isGenerated, hasImage.
    split; [exact I|].
    destruct (row_chapter r) as [c|].
    + assert (E : exists c0, In c0 (or_empty (chapters b)) /\
                             chapter_number c0 = entry_number (row_entry r))
        by (exists c; apply FS; reflexivity).
      pose proof (truthy_present (image_url c)) as TP.
      split; [split; [intros _; exact E|reflexivity]|].
      split; [intros c0 H0; injection H0 as <-; apply FS; reflexivity|].
      split.
      * split; [destruct (truthy_opt (image_url c)); discriminate|].
        intros N. contradiction.
      * split.
        -- destruct (truthy_opt (image_url c)); cbn [In].
           ++ intros _. exists c. split; [reflexivity|]. apply TP. reflexivity.
           ++ intros [H0|[]]. discriminate.
        -- intros (c0 & H0 & P). injection H0 as <-. apply TP in P.
           rewrite P. cbn. auto.
    + assert (N : ~ exists c0, In c0 (or_empty (chapters b)) /\
                               chapter_number c0 = entry_number (row_entry r))
        by (apply FN; reflexivity).
      split; [split; [discriminate|intros E; contradiction]|].
      split; [intros c0 H0; discriminate|].
      split; [split; [intros _; exact N|reflexivity]|].
      split; [cbn [In]; intros [H0|[]]; discriminate|].
      intros (c0 & H0 & _). discriminate.
Qed.

(** *** Progress of a consistent book *)

Lemma fraction_le_one (a m : nat) :
  1 <= m -> a <= m ->
  (inject_Z (Z.of_nat a) / inject_Z (Z.of_nat m) <= 1)%Q.
Proof.
  intros M L. apply Qle_shift_div_r.
  - change 0%Q with (inject_Z 0). rewrite <- Zlt_Qlt. lia.
  - rewrite Qmult_1_l, <- Zle_Qle. lia.
Qed.

Lemma fraction_eq_one (a m : nat) :
  1 <= m ->
  (inject_Z (Z.of_nat a) / inject_Z (Z.of_nat m) == 1)%Q <-> a = m.
Proof.
  intros M.
  assert (NZ : ~ (inject_Z (Z.of_nat m) == 0)%Q).
  { change 0%Q with (inject_Z 0). rewrite inject_Z_injective. lia. }
  split.
  - intros H.
    assert (E : (inject_Z (Z.of_nat a) == inject_Z (Z.of_nat m))%Q).
    { transitivity (inject_Z (Z.of_nat m)
                    * (inject_Z (Z.of_nat a) / inject_Z (Z.of_nat m)))%Q.
      - symmetry. apply Qmult_div_r, NZ.
      - rewrite H. apply Qmult_1_r. }
    apply (proj1 (inject_Z_injective _ _)) in E. lia.
  - intros ->. unfold Qdiv. apply Qmult_inv_r, NZ.
Qed.

Lemma all_rows_generated b :
  Forall (fun r => isGenerated r = true) (chapter_rows b)
  <-> incl (outline_numbers b) (chapter_numbers b).
Proof.
  unfold chapter_rows, outline_numbers, chapter_numbers.
  rewrite Forall_map, Forall_forall. unfold incl. split.
  - intros H n I. apply in_map_iff in I as (e & <- & I).
    specialize (H e I). unfold isGenerated in H. cbn [row_chapter] in H.
    unfold sorted_chapters in H. rewrite find_chapter_sorted in H.
    destruct (find_chapter _ _) as [c|] eqn:F; [|discriminate].
    apply find_chapter_some in F as [Ic E]. rewrite <- E.
    apply in_map, Ic.
  - intros H e I. unfold isGenerated. cbn [row_chapter].
    unfold sorted_chapters. rewrite find_chapter_sorted.
    destruct (find_chapter _ _) as [c|] eqn:F; [reflexivity|].
    exfalso. apply find_chapter_none in F. apply F.
    specialize (H (entry_number e) (in_map _ _ _ I)).
    apply in_map_iff in H as (c & E & Ic). eauto.
Qed.

(** X8.  For a book whose chapters have distinct numbers, all of them
    numbers of the outline, there are at most as many chapters as outline
    entries and the progress fraction is at most 1; if the outline is not
    empty and its numbers are distinct too, the fraction is 1 exactly when
    every outline entry shows as generated. *)
Theorem progress_of_consistent_book (b : book) :
  NoDup (chapter_numbers b) ->
  incl (chapter_numbers b) (outline_numbers b) ->
  length (sorted_chapters b) <= length (or_empty (outline b)) /\
  (progress b <= 1)%Q /\
  (NoDup (outline_numbers b) -> or_empty (outline b) <> [] ->
   ((progress b == 1)%Q
    <-> Forall (fun r => isGenerated r = true) (chapter_rows b))).
Proof.
  intros ND I.
  assert (L : length (sorted_chapters b) <= length (or_empty (outline b))).
  { rewrite sorted_chapters_length.
    pose proof (NoDup_incl_length ND I) as H.
    unfold chapter_numbers, outline_numbers in H.
    rewrite !length_map in H. exact H. }
  split; [exact L|]. unfold progress, progress_denominator. split.
  - apply fraction_le_one; lia.
  - intros NDo NE.
    assert (P : 1 <= length (or_empty (outline b)))
      by (destruct (or_empty (outline b)); [congruence|simpl; lia]).
    rewrite Nat.max_l by exact P.
    rewrite (fraction_eq_one _ P), all_rows_generated.
    rewrite sorted_chapters_length in *. split.
    + intros E. apply NoDup_length_incl; [exact ND| |exact I].
      unfold chapter_numbers, outline_numbers. rewrite !length_map. lia.
    + intros Io. pose proof (NoDup_incl_length NDo Io) as H.
      unfold chapter_numbers, outline_numbers in H.
      rewrite !length_map in H. lia.
Qed.

Lemma progress_of_consistent_book_witness :
  (progress written_book <= 1)%Q.
Proof.
  refine (proj1 (proj2 (progress_of_consistent_book written_book _ _))).
  - repeat constructor; cbn; intuition discriminate.
  - intros n H. cbn in *. intuition.
Defined.

(** *** The handlers *)

(** X9.  Every click handler of the page (generate a chapter, generate an
    image, delete an image, export) shows exactly one notification of its
    own, a success exactly when the request did what was asked.  All but
    the export then reload the book, once, and only after a success; if
    that reload fails the page shows a second notification and leaves for
    the library, the success still being announced.  When the handler
    returns, its busy flag is cleared and the other busy flags are as they
    were.  Deleting an image never succeeds: the API module exports no
    deleteChapterImage, so the handler always reports the failure and
    reloads nothing. *)
Theorem handlers_bracket (b : book) (c : click) (g : response book)
        (f : flags) :
  let es := click_effects b c g in
  apply_effects f es = idle_after c f /\
  length (filter is_toast es) = (if reloads c && fails g then 2 else 1) /\
  existsb is_success es = succeeded c /\
  length (filter is_fetch es) = (if reloads c then 1 else 0) /\
  (In ToastLoadFailed es <-> reloads c = true /\ fails g = true) /\
  (In NavigateLibrary es <-> reloads c = true /\ fails g = true) /\
  (forall n r,
      c = ClickDeleteImage n r ->
      succeeded c = false /\
      es = [SetDeletingImage (Some n);
            Base (ToastError (Failure (lit "Failed to delete image")));
            SetDeletingImage None]).
Proof.
  destruct f as [l e gc gi di].
  destruct c as [n [u|d]|n [[u]|d]|n r|fmt [data|d]]; cbv zeta;
    unfold click_effects, idle_after, reloads, succeeded,
           handleGenerateChapter, handleDeleteImage, handleGenerateImage,
           handleExport;
    change (@imported unit "generateChapter") with (fun r : response unit => r);
    change (@imported image_result "generateChapterImage")
      with (fun r : response image_result => r);
    change (@imported jsstring "exportBook")
      with (fun r : response jsstring => r);
    change (@imported unit "deleteChapterImage")
      with (fun _ : response unit => @Rejected unit None);
    cbv beta; cbn [result_image_url];
    try (destruct (truthy_opt u));
    destruct g as [data'|d'];
    cbn [app flat_map refetch fetchBook fails andb filter is_toast is_success
         is_fetch existsb orb length apply_effects fold_left apply_effect
         loading exporting generatingChapter generatingImage deletingImage
         result_image_url In];
    (split; [reflexivity|]); (split; [reflexivity|]); (split; [reflexivity|]);
    (split; [reflexivity|]);
    (split; [|split]);
    try (intros n' r' E; try discriminate E; injection E as <- <-;
         split; reflexivity);
    try (split; [intros H|intros [H1 H2]]; try discriminate;
         try (repeat destruct H as [H|H]; try discriminate H; try contradiction);
         auto 12; fail).
Qed.

(** *** Download names *)

Lemma squeeze_no_space flag s : no_space (squeeze flag s).
Proof.
  unfold no_space. revert flag. induction s as [|c s IH]; intros flag;
    [reflexivity|].
  cbn [squeeze]. destruct (isWhiteSpace c) eqn:W.
  - destruct flag; [apply IH|]. cbn [forallb]. rewrite IH. reflexivity.
  - cbn [forallb]. rewrite W, IH. reflexivity.
Qed.

(** X10.  The file name of a download never contains whitespace: for
    every format the export menu offers, and for every title, the name is
    free of whitespace characters (for an empty title it is just the dot
    and the format). *)
Theorem download_name_no_space (b : book) (format : jsstring) :
  In format (export_requests b) ->
  no_space (download_name b format) /\
  (title b = [] -> download_name b format = lit "." ++ format).
Proof.
  intros H. rewrite download_name_underscored. split.
  - unfold no_space. rewrite forallb_app.
    rewrite (squeeze_no_space false (title b)). cbn [andb].
    unfold export_requests, header_controls in H.
    destruct (0 <? length (sorted_chapters b)); cbn in H; [|contradiction].
    destruct H as [<-|[<-|[<-|[]]]]; reflexivity.
  - intros ->. reflexivity.
Qed.

Lemma download_name_no_space_witness :
  In (lit "epub") (export_requests written_book) /\
  no_space (download_name written_book (lit "epub")).
Proof.
  assert (I : In (lit "epub") (export_requests written_book))
    by (cbn; auto).
  split; [exact I|].
  exact (proj1 (download_name_no_space written_book (lit "epub") I)).
Defined.

End ChapterListSpec.

(* ================================================================== *)
(** ** The creation flow, from the dashboard to the finished book *)
(* ================================================================== *)

Module CreatorFlowSpec.
Import BookDetail BookCreator Dialect Notions CreatorFlow Dashboard.
Import JsFacts PageFacts CreatorSpec.

(** *** Polling *)

Lemma goes_on_dec r : goes_on r \/ ~ goes_on r.
Proof.
  pose proof (tick_clears [] r) as [A B].
  destruct (clears (pollProgress_tick [] r)); [right|left; auto].
  intros G. specialize (B G). discriminate.
Qed.

Lemma polls_split rs :
  Forall goes_on rs \/
  exists rs1 r rs2,
    rs = rs1 ++ r :: rs2 /\ Forall goes_on rs1 /\ ~ goes_on r.
Proof.
  induction rs as [|r rs [IH|(rs1 & r' & rs2 & -> & F & N)]].
  - left. constructor.
  - destruct (goes_on_dec r) as [G|N].
    + left. constructor; assumption.
    + right. exists [], r, rs. auto.
  - destruct (goes_on_dec r) as [G|N'].
    + right. exists (r :: rs1), r', rs2. repeat split; auto.
    + right. exists [], r, (rs1 ++ r' :: rs2). auto.
Qed.

Lemma run_goes_on bookId t rs :
  Forall goes_on rs ->
  pollProgress_run bookId (Some t) rs
  = (Some t, flat_map (pollProgress_tick bookId) rs).
Proof.
  induction 1 as [|r rs G F IH]; [reflexivity|].
  cbn [pollProgress_run flat_map].
  rewrite (proj2 (tick_clears bookId r) G), IH. reflexivity.
Qed.

Lemma run_until_terminal bookId t rs1 r rs2 :
  Forall goes_on rs1 -> ~ goes_on r ->
  pollProgress_run bookId (Some t) (rs1 ++ r :: rs2)
  = (None, flat_map (pollProgress_tick bookId) rs1 ++ pollProgress_tick bookId r).
Proof.
  intros F N. induction F as [|r1 rs1 G F IH].
  - cbn [app pollProgress_run flat_map].
    pose proof (tick_clears bookId r) as [A _].
    destruct (clears (pollProgress_tick bookId r)); [|tauto].
    rewrite run_cleared, app_nil_r. reflexivity.
  - cbn [app pollProgress_run flat_map].
    rewrite (proj2 (tick_clears bookId r1) G), IH, app_assoc. reflexivity.
Qed.

Lemma tick_goes_on_quiet bookId r :
  goes_on r ->
  filter is_clear (pollProgress_tick bookId r) = [] /\
  filter is_navigate (pollProgress_tick bookId r) = [] /\
  forall a, In a (pollProgress_tick bookId r) ->
            exists p, a = SetWritingProgress p.
Proof.
  destruct r as [p|d]; cbn [goes_on]; [|cbn; intuition].
  intros G. destruct (tick_cases bookId p) as [[S _]|[[S _]|[_ ->]]];
    try (exfalso; apply G; unfold terminal; auto; fail).
  cbn. repeat split. intros a [<-|[]]. eauto.
Qed.

Lemma ticks_quiet bookId rs :
  Forall goes_on rs ->
  filter is_clear (flat_map (pollProgress_tick bookId) rs) = [] /\
  filter is_navigate (flat_map (pollProgress_tick bookId) rs) = [] /\
  forall a, In a (flat_map (pollProgress_tick bookId) rs) ->
            exists p, a = SetWritingProgress p.
Proof.
  induction 1 as [|r rs G F (IH1 & IH2 & IH3)]; cbn [flat_map].
  - repeat split. intros a [].
  - destruct (@tick_goes_on_quiet bookId _ G) as (Q1 & Q2 & Q3).
    rewrite !filter_app, Q1, Q2, IH1, IH2. repeat split.
    intros a H. apply in_app_or in H as [H|H]; auto.
Qed.

Lemma tick_terminal bookId r :
  ~ goes_on r ->
  exists p, r = Resolved p /\ terminal p /\
            length (filter is_clear (pollProgress_tick bookId r)) = 1.
Proof.
  destruct r as [p|d]; cbn [goes_on]; [|tauto]. intros N.
  exists p. split; [reflexivity|].
  destruct (tick_cases bookId p) as [[S ->]|[[S ->]|[G _]]];
    [unfold terminal; auto..|contradiction].
Qed.

(** The interval in general. *)

Lemma interval_run_cons bookId s e es :
  interval_run bookId s (e :: es)
  = (fst (interval_run bookId (fst (interval_step bookId s e)) es),
     snd (interval_step bookId s e)
     ++ snd (interval_run bookId (fst (interval_step bookId s e)) es)).
Proof.
  cbn [interval_run]. destruct (interval_step bookId s e) as [s' acts].
  cbn [fst snd]. destruct (interval_run bookId s' es). reflexivity.
Qed.

Lemma interval_run_in_turn bookId rs : forall t,
  interval_run bookId (Interval t 0) (answered_in_turn rs)
  = (Interval (fst (pollProgress_run bookId t rs)) 0,
     snd (pollProgress_run bookId t rs)).
Proof.
  induction rs as [|r rs IH]; intros t.
  - destruct t; reflexivity.
  - change (answered_in_turn (r :: rs))
      with (Fired :: Answered r :: answered_in_turn rs).
    rewrite !interval_run_cons. destruct t as [t|].
    + cbn [interval_step installed awaited fst snd app pollProgress_run].
      rewrite IH.
      destruct (pollProgress_run bookId
                  (if clears (pollProgress_tick bookId r) then None else Some t)
                  rs) as [t' later].
      reflexivity.
    + cbn [interval_step installed awaited fst snd app pollProgress_run].
      rewrite IH, run_cleared. reflexivity.
Qed.

Lemma tick_navigates bookId r :
  length (filter is_navigate (pollProgress_tick bookId r)) <= 1.
Proof.
  destruct r as [p|d]; [|cbn; lia].
  destruct (tick_cases bookId p) as [[_ ->]|[[_ ->]|[_ ->]]]; cbn; lia.
Qed.

Lemma interval_cleared bookId es : forall s,
  installed s = None ->
  installed (fst (interval_run bookId s es)) = None /\
  length (filter is_navigate (snd (interval_run bookId s es)))
  + awaited (fst (interval_run bookId s es)) <= awaited s.
Proof.
  induction es as [|e es IH]; intros s C.
  { cbn. split; [exact C|lia]. }
  rewrite interval_run_cons. cbn [fst snd]. rewrite filter_app, length_app.
  destruct e as [|r]; cbn [interval_step].
  - rewrite C. cbn [fst snd filter length]. apply IH, C.
  - destruct (awaited s) as [|k] eqn:K.
    + cbn [fst snd filter length]. destruct (IH s C) as [A B].
      rewrite K in B. split; [exact A|exact B].
    + cbn [fst snd].
      specialize (IH (Interval (if clears (pollProgress_tick bookId r)
                                then None else installed s) k)).
      cbn [installed awaited] in IH.
      destruct IH as [A B]; [rewrite C; destruct (clears _); reflexivity|].
      split; [exact A|].
      pose proof (tick_navigates bookId r). lia.
Qed.

(** X11.  When the polls of the creation flow are answered in turn, each
    before the next firing, the interval behaves as [pollProgress] tells:
    while no answer is terminal every firing only records the progress and
    the interval stays; the flow clears its interval at most once,
    navigates at most once and never both announces the book and reports
    an error.  In general, a cleared interval stays cleared and polls no
    more, but the polls awaited at that moment are still handled, each
    navigating at most once: two polls awaited together that both report
    "chapters_complete" navigate twice. *)
Theorem creation_poll_once (bookId : jsstring) :
  (forall rs,
      interval_run bookId (Interval (Some poll_period) 0) (answered_in_turn rs)
      = (Interval (fst (pollProgress bookId rs)) 0,
         snd (pollProgress bookId rs))) /\
  (forall rs,
      Forall goes_on rs ->
      pollProgress bookId rs
      = (Some poll_period, flat_map (pollProgress_tick bookId) rs) /\
      forall a, In a (snd (pollProgress bookId rs)) ->
                exists p, a = SetWritingProgress p) /\
  (forall rs,
      length (filter is_clear (snd (pollProgress bookId rs))) <= 1 /\
      length (filter is_navigate (snd (pollProgress bookId rs))) <= 1 /\
      ~ (In ToastBookComplete (snd (pollProgress bookId rs)) /\
         exists text,
           In (ToastGenerationError text) (snd (pollProgress bookId rs)))) /\
  (forall s es,
      installed s = None ->
      installed (fst (interval_run bookId s es)) = None /\
      length (filter is_navigate (snd (interval_run bookId s es)))
      + awaited (fst (interval_run bookId s es)) <= awaited s) /\
  length (filter is_navigate
            (snd (interval_run bookId (Interval (Some poll_period) 0)
                               [Fired; Fired; Answered (Resolved finished);
                                Answered (Resolved finished)]))) = 2.
Proof.
  split; [|split; [|split; [|split]]].
  - intros rs. apply interval_run_in_turn.
  - unfold pollProgress. intros rs F.
    rewrite (@run_goes_on bookId _ _ F). split; [reflexivity|].
    apply ticks_quiet, F.
  - unfold pollProgress. intros rs.
    destruct (polls_split rs) as [F|(rs1 & r & rs2 & -> & F & N)].
    + rewrite (@run_goes_on bookId _ _ F). cbn [snd].
      destruct (@ticks_quiet bookId _ F) as (Q1 & Q2 & Q3).
      rewrite Q1, Q2. repeat split; try (simpl; lia).
      intros [H _]. apply Q3 in H as (p & H). discriminate.
    + rewrite (@run_until_terminal bookId _ _ _ _ F N). cbn [snd].
      destruct (@ticks_quiet bookId _ F) as (Q1 & Q2 & Q3).
      rewrite !filter_app, Q1, Q2. cbn [app].
      destruct (@tick_terminal bookId _ N) as (p & -> & T & C).
      destruct (tick_cases bookId p) as [[S ->]|[[S ->]|[G _]]];
        [| |contradiction]; cbn; repeat split; try lia.
      * intros [_ (text & H)]. apply in_app_or in H as [H|H].
        -- apply Q3 in H as (q & H). discriminate.
        -- cbn in H. intuition discriminate.
      * intros [H _]. apply in_app_or in H as [H|H].
        -- apply Q3 in H as (q & H). discriminate.
        -- cbn in H. intuition discriminate.
  - intros s es. apply interval_cleared.
  - reflexivity.
Qed.

Lemma creation_poll_once_witness :
  installed (fst (interval_run (lit "b1") (Interval None 1)
                               [Fired; Answered (Resolved finished);
                                Answered (Resolved finished)])) = None /\
  length (filter is_navigate
            (snd (interval_run (lit "b1") (Interval None 1)
                               [Fired; Answered (Resolved finished);
                                Answered (Resolved finished)])))
  + awaited (fst (interval_run (lit "b1") (Interval None 1)
                               [Fired; Answered (Resolved finished);
                                Answered (Resolved finished)])) <= 1.
Proof.
  apply (proj1 (proj2 (proj2 (proj2 (creation_poll_once (lit "b1")))))
               (Interval None 1)).
  reflexivity.
Defined.


(** *** Ideas *)

Lemma blank_guard theme :
  negb (truthy (trim theme)) = forallb isWhiteSpace theme.
Proof.
  pose proof (trim_nil_iff theme) as [A B].
  destruct (trim theme) as [|c t]; cbn [truthy negb].
  - symmetry. apply A. reflexivity.
  - destruct (forallb isWhiteSpace theme); [|reflexivity].
    specialize (B eq_refl). discriminate.
Qed.

(** Membership in a short, explicit list of actions. *)
Ltac in_now := cbn [app In]; auto 12.

(** Take a membership hypothesis apart: only the actions of the right
    shape remain, with their arguments identified. *)
Ltac in_inv :=
  let H := fresh "H" in
  intros H; cbn [app In] in H;
  repeat (destruct H as [H|H]; [try discriminate H|]);
  try contradiction;
  try (injection H as H; subst).

Lemma ideas_call theme language r t l :
  In (CallGenerateIdeas t l) (handleGenerateIdeas theme language r)
  <-> t = theme /\ l = language /\ filled theme.
Proof.
  unfold handleGenerateIdeas, filled. rewrite blank_guard.
  destruct (forallb isWhiteSpace theme).
  { split; [in_inv|]. intros (_ & _ & F). discriminate F. }
  split.
  - destruct r as [data|d]; [destruct (0 <? _)|]; in_inv; auto.
  - intros (-> & -> & _). in_now.
Qed.

(** X12.  [handleGenerateIdeas] asks for ideas only for a theme that has a
    character other than whitespace, and then with the theme and language
    as typed; for a blank theme its only effect is the request to enter
    one.  The list of ideas is replaced only by a non-empty list that the
    API returned. *)
Theorem ideas_need_a_theme (theme language : jsstring)
        (r : response ideas_data) :
  let acts := handleGenerateIdeas theme language r in
  (forallb isWhiteSpace theme = true ->
   acts = [Error (say language "Entrez une thematique" "Enter a theme")]) /\
  (In (CallGenerateIdeas theme language) acts <-> filled theme) /\
  (forall t l, In (CallGenerateIdeas t l) acts -> t = theme /\ l = language) /\
  (forall l, In (SetIdeas l) acts ->
             l <> [] /\ filled theme /\
             exists data, r = Resolved data /\ data_ideas data = Some l) /\
  (forall data l, filled theme -> r = Resolved data ->
                  data_ideas data = Some l -> l <> [] ->
                  In (SetIdeas l) acts).
Proof.
  cbv zeta. unfold handleGenerateIdeas, filled. rewrite blank_guard.
  destruct (forallb isWhiteSpace theme).
  { split; [reflexivity|]. split; [split; [in_inv|discriminate]|].
    split; [intros t l; in_inv|]. split; [intros l; in_inv|].
    intros data l F. discriminate F. }
  split; [discriminate|]. split; [split; [reflexivity|in_now]|].
  destruct r as [[[[|i l]|] e]|d];
    cbn [data_ideas or_empty length Nat.ltb Nat.leb].
  - split; [intros t l'; in_inv; split; reflexivity|].
    split; [intros l'; in_inv|].
    intros data l' _ E E' N. injection E as <-. cbn in E'. congruence.
  - split; [intros t l'; in_inv; split; reflexivity|].
    split.
    + intros l'; in_inv. split; [discriminate|]. split; [reflexivity|].
      eexists. split; reflexivity.
    + intros data l' _ E E' N. injection E as <-. cbn in E'.
      injection E' as <-. in_now.
  - split; [intros t l'; in_inv; split; reflexivity|].
    split; [intros l'; in_inv|].
    intros data l' _ E E' N. injection E as <-. cbn in E'. discriminate.
  - split; [intros t l'; in_inv; split; reflexivity|].
    split; [intros l'; in_inv|].
    intros data l' _ E E' N. discriminate.
Qed.

Lemma ideas_need_a_theme_witness :
  handleGenerateIdeas (lit "   ") (lit "en") (Rejected None)
  = [Error (lit "Enter a theme")].
Proof.
  exact (proj1 (ideas_need_a_theme (lit "   ") (lit "en") (Rejected None))
               eq_refl).
Defined.

(** *** From the dashboard *)

(** X13.  A theme chosen on the dashboard opens the creation page, which
    asks for ideas at once exactly when the theme has a title with a
    character other than whitespace, with that title and the dashboard's
    language; a theme without title does nothing on arrival, and so does
    opening the page directly. *)
Theorem theme_from_dashboard (theme : theme_card) (language : jsstring)
        (r : response ideas_data) :
  language <> [] ->
  let target := handleSelectTheme theme language in
  let acts := on_mount (Some (snd target)) r in
  fst target = lit "/create" /\
  (forall t l, In (CallGenerateIdeas t l) acts
               <-> theme_title theme = Some t /\ filled t /\ l = language) /\
  (theme_title theme = None \/ theme_title theme = Some [] -> acts = []) /\
  on_mount None r = [].
Proof.
  intros NL. cbv zeta. unfold on_mount, themeFromDashboard, langFromDashboard.
  cbn [handleSelectTheme fst snd nav_theme nav_language].
  assert (L : or_else (Some language) (lit "fr") = language)
    by (destruct language; [congruence|reflexivity]).
  rewrite L. split; [reflexivity|]. split; [|split; [|reflexivity]].
  - intros t l. destruct (theme_title theme) as [[|c title]|];
      cbn [or_else truthy_opt truthy].
    + split; [intros []|]. intros (E & F & _). injection E as <-.
      discriminate F.
    + rewrite ideas_call. split.
      * intros (-> & -> & F). auto.
      * intros (E & F & ->). injection E as <-. auto.
    + split; [intros []|]. intros (E & _). discriminate.
  - intros [->| ->]; reflexivity.
Qed.

Lemma theme_from_dashboard_witness :
  In (CallGenerateIdeas (lit "Vegan cooking") (lit "en"))
     (on_mount
        (Some (snd (handleSelectTheme (ThemeCard (Some (lit "Vegan cooking")))
                                      (lit "en"))))
        (Rejected None)).
Proof.
  apply (proj1 (proj2 (@theme_from_dashboard
                         (ThemeCard (Some (lit "Vegan cooking"))) (lit "en")
                         (Rejected None) ltac:(discriminate)))).
  repeat split.
Defined.

(** *** Creating the book *)

Lemma or_hundred_nonzero x : or_hundred x <> 0%Z.
Proof. destruct x as [[| |]|]; cbn; discriminate. Qed.

(** X14.  [handleCreateBook] never asks for a book of 0 pages (a missing
    or zero page count becomes 100); it asks for the outline only after
    the book was created, and for that book; it moves on to the outline
    step exactly when both calls succeeded and the answer carries an
    outline, even an empty one; and when the answer carries no outline it
    stays where it is without reporting any error. *)
Theorem create_book_flow (selectedIdea : option idea)
        (language imageSource : jsstring)
        (r1 : response created_book) (r2 : response outline_data) :
  let acts := handleCreateBook selectedIdea language imageSource r1 r2 in
  (selectedIdea = None -> acts = []) /\
  (forall p, In (CallCreateBook p) acts ->
             target_pages p <> 0%Z /\
             exists i, selectedIdea = Some i /\
                       p = create_payload i language imageSource) /\
  (forall id, In (CallGenerateOutline id) acts
              <-> selectedIdea <> None /\
                  exists bk, r1 = Resolved bk /\ book_id bk = id) /\
  (forall o, In (SetOutline o) acts
             <-> selectedIdea <> None /\ resolved r1 /\
                 r2 = Resolved (OutlineData (Some o))) /\
  (In (SetStep 2) acts
   <-> selectedIdea <> None /\ resolved r1 /\
       exists o, r2 = Resolved (OutlineData (Some o))) /\
  (selectedIdea <> None -> resolved r1 -> r2 = Resolved (OutlineData None) ->
   forall text, ~ In (Error text) acts).
Proof.
  cbv zeta. unfold handleCreateBook, resolved.
  destruct selectedIdea as [i|].
  2:{ split; [reflexivity|]. split; [intros p []|].
    split; [intros id; split; [intros []|intros (N & _); congruence]|].
    split; [intros o; split; [intros []|intros (N & _); congruence]|].
    split; [split; [intros []|intros (N & _); congruence]|].
    intros N. congruence. }
  assert (SI : Some i <> None) by discriminate.
  split; [discriminate|].
  assert (P : forall p, p = create_payload i language imageSource ->
                        target_pages p <> 0%Z /\
                        exists i0, Some i = Some i0 /\
                                   p = create_payload i0 language imageSource).
  { intros p ->. split; [apply or_hundred_nonzero|eauto]. }
  destruct r1 as [bk|d1].
  2:{ split; [intros p; in_inv; apply P; reflexivity|].
      split; [intros id; split; [in_inv|intros (_ & bk & E & _); discriminate]|].
      split; [intros o; split; [in_inv|intros (_ & (bk & E) & _); discriminate]|].
      split; [split; [in_inv|intros (_ & (bk & E) & _); discriminate]|].
      intros _ (bk & E). discriminate. }
  assert (R1 : exists data, Resolved bk = Resolved data) by eauto.
  destruct r2 as [[[o|]]|d2]; cbn [data_outline].
  - split; [intros p; in_inv; apply P; reflexivity|].
    split.
    { intros id; split; [in_inv; eauto|].
      intros (_ & bk0 & E & <-). injection E as <-. in_now. }
    split.
    { intros o'; split; [in_inv; auto|].
      intros (_ & _ & E). injection E as <-. in_now. }
    split; [split; [eauto|in_now]|].
    intros _ _ E. discriminate.
  - split; [intros p; in_inv; apply P; reflexivity|].
    split.
    { intros id; split; [in_inv; eauto|].
      intros (_ & bk0 & E & <-). injection E as <-. in_now. }
    split; [intros o'; split; [in_inv|intros (_ & _ & E); discriminate]|].
    split; [split; [in_inv|intros (_ & _ & o & E); discriminate]|].
    intros _ _ _ text. in_inv.
  - split; [intros p; in_inv; apply P; reflexivity|].
    split.
    { intros id; split; [in_inv; eauto|].
      intros (_ & bk0 & E & <-). injection E as <-. in_now. }
    split; [intros o'; split; [in_inv|intros (_ & _ & E); discriminate]|].
    split; [split; [in_inv|intros (_ & _ & o & E); discriminate]|].
    intros _ _ E. discriminate.
Qed.

Lemma create_book_flow_witness :
  ~ In (Error (lit "Failed to create book"))
       (handleCreateBook
          (Some (Idea (lit "T") None (lit "D") (lit "guide") (Some 0%Z)))
          (lit "en") (lit "ai")
          (Resolved (CreatedBook (lit "b1")))
          (Resolved (OutlineData None))).
Proof.
  apply (proj2 (proj2 (proj2 (proj2 (proj2
           (create_book_flow
              (Some (Idea (lit "T") None (lit "D") (lit "guide") (Some 0%Z)))
              (lit "en") (lit "ai")
              (Resolved (CreatedBook (lit "b1")))
              (Resolved (OutlineData None)))))))).
  - discriminate.
  - eexists. reflexivity.
  - reflexivity.
Defined.

(** *** Approving the outline *)




(** *** The writing progress bar *)

(** X16.  The value of the writing progress bar is always defined (its
    denominator is at least 1, also for a book of 0 chapters) and never
    negative; it stays within 100 as long as no more chapters are reported
    than the total, and it is full exactly when the number of generated
    chapters reaches the denominator. *)
Theorem bar_within_range (p : writing_progress) :
  1 <= bar_denominator p /\
  (0 <= bar_value p)%Q /\
  (generated_chapters p <= total_chapters p -> (bar_value p <= 100)%Q) /\
  ((bar_value p == 100)%Q <-> generated_chapters p = bar_denominator p) /\
  (generated_chapters p = 0 -> (bar_value p == 0)%Q).
Proof.
  assert (M : 1 <= bar_denominator p) by (unfold bar_denominator; lia).
  assert (PZ : (0 < inject_Z (Z.of_nat (bar_denominator p)))%Q).
  { change 0%Q with (inject_Z 0). rewrite <- Zlt_Qlt. lia. }
  split; [exact M|]. unfold bar_value. split; [|split; [|split]].
  - apply Qmult_le_0_compat; [|discriminate].
    apply Qle_shift_div_l; [exact PZ|].
    rewrite Qmult_0_l. change 0%Q with (inject_Z 0). rewrite <- Zle_Qle. lia.
  - intros L.
    assert (L' : generated_chapters p <= bar_denominator p)
      by (unfold bar_denominator; lia).
    pose proof (ChapterListSpec.fraction_le_one M L') as F.
    apply Qle_trans with (1 * 100)%Q; [|discriminate].
    apply Qmult_le_compat_r; [exact F|discriminate].
  - rewrite <- (ChapterListSpec.fraction_eq_one (generated_chapters p) M).
    change (100%Q) with (1 * 100)%Q at 2.
    apply Qmult_inj_r. discriminate.
  - intros ->. reflexivity.
Qed.

End CreatorFlowSpec.
